(** * OXEMU training points: scaling of Latin Hypercube samples and
      generation of the linear matter power spectrum

    A shallow embedding of [trainingpoints.py] ([generate_prior],
    [scale_lhs], [pk_linear]).  Python floats are IEEE binary64 numbers and
    are embedded as Rocq's primitive floats.  Everything the script calls but
    does not define (the statistics library, the configuration module, the
    power-spectrum engine) is a record of operations the definitions are
    parameterised by; exceptions are the left summand of [result]; file reads,
    file writes and engine calls are recorded in a journal carried by a
    state-and-exception monad. *)

From Stdlib Require Import List String Ascii Bool Arith Lia PrimFloat.
Import ListNotations.
Open Scope string_scope.
Open Scope list_scope.

(** ** Exceptions *)

Inductive exn : Type :=
| AttributeError (name : string)
| KeyError (key : string)
| IndexError
| TypeError
| FileError (path : string)
| Raised (tag : string).

Definition result (A : Type) : Type := (exn + A)%type.

Definition ok {A : Type} (a : A) : result A := inr a.

Definition raise {A : Type} (e : exn) : result A := inl e.

Definition rbind {A B : Type} (r : result A) (k : A -> result B) : result B :=
  match r with
  | inl e => inl e
  | inr a => k a
  end.

Notation "'let?' x ':=' r 'in' k" := (rbind r (fun x => k))
  (at level 10, x name, r at level 100, k at level 200).

(** ** Python containers *)

(** A [dict] keeps its keys in insertion order; assigning to a key that is
    already present replaces the value and leaves the position alone. *)
Definition dict (A : Type) : Type := list (string * A).

Fixpoint dict_get {A : Type} (d : dict A) (k : string) : option A :=
  match d with
  | [] => None
  | (k', v) :: d' => if String.eqb k' k then Some v else dict_get d' k
  end.

Fixpoint dict_set {A : Type} (d : dict A) (k : string) (v : A) : dict A :=
  match d with
  | [] => [(k, v)]
  | (k', v') :: d' =>
      if String.eqb k' k then (k', v) :: d' else (k', v') :: dict_set d' k v
  end.

Definition keys {A : Type} (d : dict A) : list string := map fst d.

(** [d[k]] *)
Definition subscript {A : Type} (d : dict A) (k : string) : result A :=
  match dict_get d k with
  | Some v => ok v
  | None => raise (KeyError k)
  end.

(** [l[i]] for a list, a row of a data frame or a positional series *)
Definition item {A : Type} (l : list A) (i : nat) : result A :=
  match nth_error l i with
  | Some v => ok v
  | None => raise IndexError
  end.

(** ** Strings and paths *)

(** [sub in s] *)
Fixpoint str_contains (sub s : string) : bool :=
  String.prefix sub s
  || match s with
     | EmptyString => false
     | String _ s' => str_contains sub s'
     end.

Fixpoint endswith_sep (s : string) : bool :=
  match s with
  | EmptyString => false
  | String c EmptyString => Ascii.eqb c "/"
  | String _ s' => endswith_sep s'
  end.

(** [os.path.join(a, b)] of [posixpath]: an absolute second component
    discards the first one. *)
Definition os_path_join (a b : string) : string :=
  if String.prefix "/" b then b
  else if (String.eqb a "" || endswith_sep a)%bool then (a ++ b)%string
  else (a ++ "/" ++ b)%string.

(** ** External collaborators *)

(** The namespace of [scipy.stats] as [getattr] and a call see it.
    [is_distribution] tells the distribution families ([uniform], [norm],
    ...) from the other attributes of the module (functions, classes,
    sub-modules); the script never consults it. *)
Record Stats : Type := {
  arg : Type;
  attr : Type;
  obj : Type;
  stats_getattr : string -> option attr;
  is_distribution : attr -> bool;
  stats_call : attr -> list arg -> result obj;
  ppf_method : obj -> option (float -> result float)
}.

(** One entry of [CONFIG.PRIORS]: a dictionary with the entries
    [distribution] and [specs]. *)
Record prior_spec (S : Stats) : Type := {
  distribution : string;
  specs : list (arg S)
}.

Arguments distribution {S} _.
Arguments specs {S} _.

(** [oxemu.config]: the constants the script reads. *)
Record Config (S : Stats) : Type := {
  COSMO : list string;
  PRIORS : dict (prior_spec S);
  Z_MIN : float;
  Z_MAX : float;
  K_MIN : float;
  K_MAX : float
}.

Arguments COSMO {S} _.
Arguments PRIORS {S} _.
Arguments Z_MIN {S} _.
Arguments Z_MAX {S} _.
Arguments K_MIN {S} _.
Arguments K_MAX {S} _.

(** One scaled cosmology: parameter name to physical value. *)
Definition cosmology : Type := dict float.

(** [oxemu.src.cosmology.PowerSpectrum]: the constructor and the
    [pk_linear] method of the object it builds. *)
Record Cosmology : Type := {
  engine : Type;
  spectrum : Type;
  PowerSpectrum : float -> float -> float -> float -> result engine;
  module_pk_linear : engine -> cosmology -> float -> result spectrum
}.

(** ** The world: input files and the journal of effects *)

Inductive payload (sp : Type) : Type :=
| Cosmologies (l : list cosmology)
| Spectra (l : list sp).

Arguments Cosmologies {sp} _.
Arguments Spectra {sp} _.

Inductive event (sp : Type) : Type :=
| ReadCsv (path : string)
| SaveCsv (df : payload sp) (folder name : string)
| SaveList (l : payload sp) (folder name : string)
| NewEngine (zmin zmax kmin kmax : float)
| CallEngine (cosmo : cosmology) (redshift : float).

Arguments ReadCsv {sp} _.
Arguments SaveCsv {sp} _ _ _.
Arguments SaveList {sp} _ _ _.
Arguments NewEngine {sp} _ _ _ _.
Arguments CallEngine {sp} _ _.

(** [disk p] is the frame [pd.read_csv(p, index_col=[0])] yields (the rows
    without the index column), or [None] when the file is missing or does
    not parse.  Both functions read before they write, and read once. *)
Record World (sp : Type) : Type := {
  disk : string -> option (list (list float));
  journal : list (event sp)
}.

Arguments disk {sp} _ _.
Arguments journal {sp} _.

Definition log {sp : Type} (ev : event sp) (w : World sp) : World sp :=
  {| disk := disk w; journal := journal w ++ [ev] |}.

Definition is_call {sp : Type} (ev : event sp) : bool :=
  match ev with
  | CallEngine _ _ => true
  | _ => false
  end.

Definition is_spectra_write {sp : Type} (ev : event sp) : bool :=
  match ev with
  | SaveCsv (Spectra _) _ _ | SaveList (Spectra _) _ _ => true
  | _ => false
  end.

(** ** The state-and-exception monad *)

Definition M (sp A : Type) : Type := World sp -> result A * World sp.

Definition ret {sp A : Type} (a : A) : M sp A := fun w => (ok a, w).

Definition bind {sp A B : Type} (c : M sp A) (k : A -> M sp B) : M sp B :=
  fun w =>
    match c w with
    | (inl e, w') => (inl e, w')
    | (inr a, w') => k a w'
    end.

Definition lift {sp A : Type} (r : result A) : M sp A := fun w => (r, w).

Notation "x <- c ;; k" := (bind c (fun x => k))
  (at level 61, c at next level, right associativity).
Notation "c ;;; k" := (bind c (fun _ => k))
  (at level 61, right associativity).

(** * The script *)

Section Script.

Context (S : Stats) (CONFIG : Config S) (C : Cosmology).

Abbreviation sp := (spectrum C).

(** [pd.read_csv(path, index_col=[0])] *)
Definition pd_read_csv (path : string) : M sp (list (list float)) :=
  fun w =>
    match disk w path with
    | Some lhs => (ok lhs, log (ReadCsv path) w)
    | None => (raise (FileError path), w)
    end.

(** Modelled from the spec: [hp.save_csv] of [oxemu.utils.helpers], which
    persists a data frame as a tabular file under a folder and a name. *)
Definition save_csv (df : payload sp) (folder name : string) : M sp unit :=
  fun w => (ok tt, log (SaveCsv df folder name) w).

(** Modelled from the spec: [hp.save_list] of [oxemu.utils.helpers], which
    persists a list in serialized form under a folder and a name. *)
Definition save_list (l : payload sp) (folder name : string) : M sp unit :=
  fun w => (ok tt, log (SaveList l folder name) w).

(** [PowerSpectrum(zmin, zmax, kmin, kmax)] *)
Definition new_engine (zmin zmax kmin kmax : float) : M sp (engine C) :=
  fun w => (PowerSpectrum C zmin zmax kmin kmax, log (NewEngine zmin zmax kmin kmax) w).

(** [module.pk_linear(cosmo, redshift)] *)
Definition call_engine (module : engine C) (cosmo : cosmology) (redshift : float)
  : M sp sp :=
  fun w => (module_pk_linear C module cosmo redshift, log (CallEngine cosmo redshift) w).

(** The attribute of [scipy.stats] named by the [distribution] entry is
    looked up with [getattr] and called on the unpacked [specs] entry. *)
Definition generate_prior (dictionary : prior_spec S) : result (obj S) :=
  match stats_getattr S (distribution dictionary) with
  | None => raise (AttributeError (distribution dictionary))
  | Some dist => stats_call S dist (specs dictionary)
  end.

(** [path] of [scale_lhs] *)
Definition lhs_path (fname : string) : string :=
  if str_contains ".csv" fname
  then os_path_join "data" fname
  else os_path_join "data" (fname ++ ".csv")%string.

(** [for param in CONFIG.COSMO:
       priors[param] = generate_prior(CONFIG.PRIORS[param])] *)
Fixpoint build_priors (params : list string) (priors : dict (obj S))
  : result (dict (obj S)) :=
  match params with
  | [] => ok priors
  | param :: rest =>
      let? dictionary := subscript (PRIORS CONFIG) param in
      let? dist := generate_prior dictionary in
      build_priors rest (dict_set priors param dist)
  end.

(** [priors[CONFIG.COSMO[k]].ppf(cosmo[k])]: the method is looked up
    before the argument is evaluated. *)
Definition scale_value (priors : dict (obj S)) (cosmo : list float) (k : nat)
  : result (string * float) :=
  let? name := item (COSMO CONFIG) k in
  let? dist := subscript priors name in
  match ppf_method S dist with
  | None => raise (AttributeError "ppf")
  | Some ppf =>
      let? u := item cosmo k in
      let? x := ppf u in
      ok (name, x)
  end.

(** [{CONFIG.COSMO[k]: priors[CONFIG.COSMO[k]].ppf(cosmo[k])
      for k in range(len(CONFIG.COSMO))}] *)
Fixpoint scale_row (priors : dict (obj S)) (cosmo : list float)
  (ks : list nat) (acc : cosmology) : result cosmology :=
  match ks with
  | [] => ok acc
  | k :: ks' =>
      let? kv := scale_value priors cosmo k in
      scale_row priors cosmo ks' (dict_set acc (fst kv) (snd kv))
  end.

(** [for i in range(ncosmo): cosmo = lhs.iloc[i, :]; ...;
      cosmo_list.append(cosmo)] *)
Fixpoint scale_loop (lhs : list (list float)) (priors : dict (obj S))
  (range : list nat) (cosmo_list : list cosmology) : result (list cosmology) :=
  match range with
  | [] => ok cosmo_list
  | i :: range' =>
      let? cosmo := item lhs i in
      let? cosmo' :=
        scale_row priors cosmo (seq 0 (List.length (COSMO CONFIG))) [] in
      scale_loop lhs priors range' (cosmo_list ++ [cosmo'])
  end.

Definition scale_lhs (fname : string) (save : bool) : M sp (list cosmology) :=
  lhs <- pd_read_csv (lhs_path fname) ;;
  let ncosmo := List.length lhs in
  priors <- lift (build_priors (COSMO CONFIG) []) ;;
  cosmo_list <- lift (scale_loop lhs priors (seq 0 ncosmo) []) ;;
  (if save
   then save_csv (Cosmologies cosmo_list) "data" "cosmologies" ;;;
        save_list (Cosmologies cosmo_list) "data" "cosmologies"
   else ret tt) ;;;
  ret cosmo_list.

(** [for cosmo in cosmologies:
       pk_lin.append(module.pk_linear(cosmo, redshift))] *)
Fixpoint pk_loop (module : engine C) (redshift : float)
  (cosmologies : list cosmology) (pk_lin : list sp) : M sp (list sp) :=
  match cosmologies with
  | [] => ret pk_lin
  | cosmo :: rest =>
      pk <- call_engine module cosmo redshift ;;
      pk_loop module redshift rest (pk_lin ++ [pk])
  end.

Definition pk_linear (fname : string) (redshift : float)
  : M sp (list cosmology * list sp) :=
  cosmologies <- scale_lhs fname true ;;
  module <- new_engine (Z_MIN CONFIG) (Z_MAX CONFIG) (K_MIN CONFIG) (K_MAX CONFIG) ;;
  pk_lin <- pk_loop module redshift cosmologies [] ;;
  save_csv (Spectra pk_lin) "data" "pk_linear" ;;;
  save_list (Spectra pk_lin) "data" "pk_linear" ;;;
  ret (cosmologies, pk_lin).

End Script.

(** ** Reference formulations used by the statements below *)

(** Apply [f] to every element in order and stop at the first exception. *)
Fixpoint traverse {A B : Type} (f : A -> result B) (l : list A) : result (list B) :=
  match l with
  | [] => ok []
  | x :: rest =>
      let? y := f x in
      let? ys := traverse f rest in
      ok (y :: ys)
  end.

Definition assign {A : Type} (d : dict A) (kv : string * A) : dict A :=
  dict_set d (fst kv) (snd kv).

(** The scaled cosmology of one row, as a function of that row alone. *)
Definition scale_one (S : Stats) (CONFIG : Config S) (priors : dict (obj S))
  (cosmo : list float) : result cosmology :=
  scale_row S CONFIG priors cosmo (seq 0 (List.length (COSMO CONFIG))) [].



(** The prior a successful construction holds for a parameter name. *)
Definition prior_of (S : Stats) (CONFIG : Config S) (name : string) (prior : obj S)
  : Prop :=
  exists spec,
    dict_get (PRIORS CONFIG) name = Some spec /\ generate_prior S spec = ok prior.

(** One entry of a scaled cosmology: the quantile function of the prior of
    the k-th parameter applied to the k-th unit value of the row. *)
Definition scaled_entry (S : Stats) (CONFIG : Config S) (priors : dict (obj S))
  (cosmo : list float) (k : nat) (name : string) (x : float) : Prop :=
  nth_error (COSMO CONFIG) k = Some name /\
  exists prior ppf u,
    dict_get priors name = Some prior /\
    ppf_method S prior = Some ppf /\
    nth_error cosmo k = Some u /\
    ppf u = ok x.

(** Every parameter has a prior with a quantile function that accepts the
    unit value of the row. *)
Definition scalable (S : Stats) (CONFIG : Config S) (priors : dict (obj S))
  (cosmo : list float) : Prop :=
  forall k name, nth_error (COSMO CONFIG) k = Some name ->
    exists x, scaled_entry S CONFIG priors cosmo k name x.

(** ** A small instance: two uniform priors and a threshold engine *)

Module Toy.

Open Scope float_scope.

Inductive toy_arg : Type :=
| Num (x : float)
| Seq (xs : list float).

Inductive toy_attr : Type :=
| uniform
| describe.

Inductive toy_obj : Type :=
| Frozen (loc scale : float)
| DescribeResult (nobs : nat).

(** A fragment of the namespace: the family [uniform] and the summary
    function [describe]. *)
Definition getattr (name : string) : option toy_attr :=
  if String.eqb name "uniform" then Some uniform
  else if String.eqb name "describe" then Some describe
  else None.

(** [uniform] takes an optional location and scale, [describe] a sequence
    with at least one element; every other call is rejected here. *)
Definition call (f : toy_attr) (args : list toy_arg) : result toy_obj :=
  match f, args with
  | uniform, [] => ok (Frozen 0 1)
  | uniform, [Num loc] => ok (Frozen loc 1)
  | uniform, [Num loc; Num scale] => ok (Frozen loc scale)
  | describe, [Seq (x :: xs)] => ok (DescribeResult (Datatypes.S (List.length xs)))
  | _, _ => raise TypeError
  end.

(** Quantile function of the uniform distribution on [loc, loc + scale]. *)
Definition uniform_ppf (loc scale q : float) : float :=
  if ((0 <? scale) && (0 <=? q) && (q <=? 1))%bool then q * scale + loc else nan.

Definition ppf_of (o : toy_obj) : option (float -> result float) :=
  match o with
  | Frozen loc scale => Some (fun q => ok (uniform_ppf loc scale q))
  | DescribeResult _ => None
  end.

Definition stats : Stats := {|
  arg := toy_arg;
  attr := toy_attr;
  obj := toy_obj;
  stats_getattr := getattr;
  is_distribution := fun f => match f with uniform => true | describe => false end;
  stats_call := call;
  ppf_method := ppf_of
|}.

Definition unit_prior : prior_spec stats :=
  {| distribution := "uniform"; specs := [Num 0; Num 1] : list (arg stats) |}.

Definition describe_prior : prior_spec stats :=
  {| distribution := "describe"; specs := [Seq [1; 2; 3]] : list (arg stats) |}.

Definition unknown_prior : prior_spec stats :=
  {| distribution := "unifrom"; specs := [Num 0; Num 1] : list (arg stats) |}.

Definition config : Config stats := {|
  COSMO := ["param1"; "param2"]%string;
  PRIORS := [("param1"%string, unit_prior); ("param2"%string, unit_prior)];
  Z_MIN := 0; Z_MAX := 5; K_MIN := 0.125; K_MAX := 50
|}.

Definition bad_config : Config stats := {|
  COSMO := ["param1"; "param2"]%string;
  PRIORS := [("param1"%string, unit_prior); ("param2"%string, unknown_prior)];
  Z_MIN := 0; Z_MAX := 5; K_MIN := 0.125; K_MAX := 50
|}.

(** An engine that fails on a cosmology whose first parameter is 0.75 or
    more and otherwise answers with a two-point spectrum. *)
Definition cosmo_engine : Cosmology := {|
  engine := unit;
  spectrum := list float;
  PowerSpectrum := fun _ _ _ _ => ok tt;
  module_pk_linear := fun _ cosmo z =>
    match dict_get cosmo "param1" with
    | Some x => if x <? 0.75 then ok [x; x + z] else raise (Raised "engine")
    | None => raise (KeyError "param1")
    end
|}.

Definition unit_rows : list (list float) := [[0.5; 0.5]].
Definition two_rows : list (list float) := [[0.25; 0.5]; [0.5; 0.75]].
Definition two_bis_rows : list (list float) := [[0.125; 0.25]; [0.5; 0.75]].
Definition three_rows : list (list float) := [[0.25; 0.5]; [0.875; 0.5]; [0.5; 0.5]].

Definition files (path : string) : option (list (list float)) :=
  if String.eqb path "data/lhs_500.csv" then Some unit_rows
  else if String.eqb path "data/empty.csv" then Some []
  else if String.eqb path "data/two.csv" then Some two_rows
  else if String.eqb path "data/two_bis.csv" then Some two_bis_rows
  else if String.eqb path "data/three.csv" then Some three_rows
  else None.

Definition world : World (list float) := {| disk := files; journal := [] |}.


(** What the uniform priors on the unit interval make of a frame. *)
Definition scaled (rows : list (list float)) : list cosmology :=
  map (fun row =>
         [("param1"%string, nth 0 row nan); ("param2"%string, nth 1 row nan)])
      rows.

Definition two_spectra : list (list float) := [[0.25; 0.25]; [0.5; 0.5]].

End Toy.

(** The prior of one parameter as the loop of [scale_lhs] obtains it:
    the entry of [CONFIG.PRIORS] under the name, handed to
    [generate_prior]. *)
Definition prior_result (S : Stats) (CONFIG : Config S) (name : string)
  : result (obj S) :=
  let? dictionary := subscript (PRIORS CONFIG) name in
  generate_prior S dictionary.

(** Every prior that was constructed has a quantile function that answers
    on every unit value. *)
Definition quantiles_total (S : Stats) (priors : dict (obj S)) : Prop :=
  forall name prior, dict_get priors name = Some prior ->
    exists ppf, ppf_method S prior = Some ppf /\ forall u, exists x, ppf u = ok x.

(** The engine answers on a cosmology. *)
Definition answers (C : Cosmology) (module : engine C) (z : float) (c : cosmology)
  : Prop :=
  exists pk, module_pk_linear C module c z = ok pk.

(** ** Further instances: other configurations, frames and engines *)

Module Variants.

Open Scope float_scope.

(** The first parameter is listed twice. *)
Definition dup_config : Config Toy.stats := {|
  COSMO := ["param1"; "param2"; "param1"]%string;
  PRIORS := [("param1"%string, Toy.unit_prior); ("param2"%string, Toy.unit_prior)];
  Z_MIN := 0; Z_MAX := 5; K_MIN := 0.125; K_MAX := 50
|}.

(** The second parameter has no entry in the priors. *)
Definition missing_config : Config Toy.stats := {|
  COSMO := ["param1"; "param3"]%string;
  PRIORS := [("param1"%string, Toy.unit_prior); ("param2"%string, Toy.unit_prior)];
  Z_MIN := 0; Z_MAX := 5; K_MIN := 0.125; K_MAX := 50
|}.

(** The prior of the only parameter is a summary function. *)
Definition describe_config : Config Toy.stats := {|
  COSMO := ["param1"]%string;
  PRIORS := [("param1"%string, Toy.describe_prior)];
  Z_MIN := 0; Z_MAX := 5; K_MIN := 0.125; K_MAX := 50
|}.

(** The prior of the second parameter is a summary function. *)
Definition describe_second_config : Config Toy.stats := {|
  COSMO := ["param1"; "param2"]%string;
  PRIORS := [("param1"%string, Toy.unit_prior); ("param2"%string, Toy.describe_prior)];
  Z_MIN := 0; Z_MAX := 5; K_MIN := 0.125; K_MAX := 50
|}.

(** No parameter at all. *)
Definition empty_config : Config Toy.stats := {|
  COSMO := [];
  PRIORS := [("param1"%string, Toy.unit_prior)];
  Z_MIN := 0; Z_MAX := 5; K_MIN := 0.125; K_MAX := 50
|}.

(** The priors hold a broken entry for a parameter that is not listed. *)
Definition extra_config : Config Toy.stats := {|
  COSMO := ["param1"; "param2"]%string;
  PRIORS := [("param1"%string, Toy.unit_prior); ("unused"%string, Toy.unknown_prior);
             ("param2"%string, Toy.unit_prior)];
  Z_MIN := 1; Z_MAX := 2; K_MIN := 0.25; K_MAX := 10
|}.

(** An engine that cannot be constructed. *)
Definition broken_engine : Cosmology := {|
  engine := unit;
  spectrum := list float;
  PowerSpectrum := fun _ _ _ _ => raise (Raised "init");
  module_pk_linear := fun _ _ _ => ok []
|}.

Definition wide_rows : list (list float) := [[0.25; 0.5; 0.75]; [0.5; 0.75; 0.125]].
Definition short_rows : list (list float) := [[0.25; 0.5]; [0.5]; [0.75; 0.25]].

Definition files (path : string) : option (list (list float)) :=
  if String.eqb path "data/two.csv" then Some Toy.two_rows
  else if String.eqb path "data/wide.csv" then Some wide_rows
  else if String.eqb path "data/short.csv" then Some short_rows
  else if String.eqb path "data/empty.csv" then Some []
  else None.

Definition world : World (list float) := {| disk := files; journal := [] |}.

End Variants.

(** [evs] appended to the journal, in order. *)
Definition logs {sp : Type} (evs : list (event sp)) (w : World sp) : World sp :=
  {| disk := disk w; journal := journal w ++ evs |}.

(** * Properties *)

(** ** Containers *)

Section Containers.

Context {A : Type}.

Implicit Types (d : dict A) (k : string) (v : A).

Lemma dict_get_set_eq d k v : dict_get (dict_set d k v) k = Some v.
Proof.
  induction d as [|[k' v'] d IH]; simpl.
  - now rewrite String.eqb_refl.
  - destruct (String.eqb k' k) eqn:E; simpl; rewrite E; auto.
Qed.

Lemma dict_get_set_ne d k k' v :
  k <> k' -> dict_get (dict_set d k v) k' = dict_get d k'.
Proof.
  intros Hne. induction d as [|[k0 v0] d IH]; simpl.
  - destruct (String.eqb_spec k k'); [contradiction | reflexivity].
  - destruct (String.eqb_spec k0 k) as [->|Hk]; simpl.
    + destruct (String.eqb_spec k k'); [contradiction | reflexivity].
    + now rewrite IH.
Qed.

Lemma dict_set_fresh d k v : ~ In k (keys d) -> dict_set d k v = d ++ [(k, v)].
Proof.
  induction d as [|[k0 v0] d IH]; simpl; intros Hn; [reflexivity|].
  destruct (String.eqb_spec k0 k) as [->|Hk].
  - exfalso. apply Hn. now left.
  - rewrite IH; [reflexivity|]. intros Hin. apply Hn. now right.
Qed.

Lemma fold_assign_fresh (kvs : list (string * A)) :
  forall d, NoDup (keys d ++ map fst kvs) -> fold_left assign kvs d = d ++ kvs.
Proof.
  induction kvs as [|[k v] kvs IH]; intros d Hnd; simpl.
  - now rewrite app_nil_r.
  - unfold assign at 2. simpl.
    assert (Hfresh : ~ In k (keys d)).
    { simpl in Hnd. apply NoDup_remove_2 in Hnd.
      intros Hin. apply Hnd. apply in_or_app. now left. }
    rewrite (dict_set_fresh d k v Hfresh).
    rewrite IH.
    + now rewrite <- app_assoc.
    + unfold keys. rewrite map_app. simpl. rewrite <- app_assoc. exact Hnd.
Qed.

Lemma dict_get_In d k v : NoDup (keys d) -> In (k, v) d -> dict_get d k = Some v.
Proof.
  induction d as [|[k0 v0] d IH]; simpl; intros Hnd Hin; [contradiction|].
  inversion Hnd as [|? ? Hnotin Hnd']; subst.
  destruct Hin as [Heq|Hin].
  - inversion Heq; subst. now rewrite String.eqb_refl.
  - destruct (String.eqb_spec k0 k) as [->|Hk].
    + exfalso. apply Hnotin. unfold keys.
      change k with (fst (k, v)). now apply in_map.
    + now apply IH.
Qed.

End Containers.

Lemma skipn_nth_error {A : Type} (l : list A) :
  forall s x, nth_error l s = Some x -> skipn s l = x :: skipn (Datatypes.S s) l.
Proof.
  induction l as [|a l IH]; intros [|s] x H; simpl in *; try discriminate.
  - now inversion H.
  - now apply IH.
Qed.

(** ** Traversals *)

Section Traverse.

Context {A B : Type} (f : A -> result B).

Lemma traverse_ok (l : list A) :
  forall ys, traverse f l = ok ys -> Forall2 (fun x y => f x = ok y) l ys.
Proof.
  induction l as [|x l IH]; simpl; intros ys H.
  - inversion H. constructor.
  - destruct (f x) as [e|y] eqn:Hx; simpl in H; [discriminate|].
    destruct (traverse f l) as [e|ys'] eqn:Hl; simpl in H; [discriminate|].
    inversion H; subst. constructor; auto.
Qed.

Lemma traverse_complete (l : list A) :
  forall ys, Forall2 (fun x y => f x = ok y) l ys -> traverse f l = ok ys.
Proof.
  induction l as [|x l IH]; intros ys H; inversion H; subst; simpl.
  - reflexivity.
  - match goal with Hx : f x = _ |- _ => rewrite Hx end. simpl.
    erewrite IH by eassumption. reflexivity.
Qed.

(** The first element [f] fails on decides the outcome. *)
Lemma traverse_fails (pre post : list A) (x : A) (ys : list B) (e : exn) :
  traverse f pre = ok ys -> f x = inl e -> traverse f (pre ++ x :: post) = inl e.
Proof.
  revert ys. induction pre as [|a pre IH]; simpl; intros ys Hpre Hx.
  - now rewrite Hx.
  - destruct (f a) as [e'|y]; simpl in *; [discriminate|].
    destruct (traverse f pre) as [e'|ys'] eqn:Hp; simpl in Hpre; [discriminate|].
    now rewrite (IH ys' eq_refl Hx).
Qed.

End Traverse.

Lemma Forall2_nth_error_l {A B : Type} (R : A -> B -> Prop) (l : list A) (ys : list B) :
  Forall2 R l ys ->
  forall i x, nth_error l i = Some x -> exists y, nth_error ys i = Some y /\ R x y.
Proof.
  induction 1 as [|a b l ys Hab _ IH]; intros [|i] x Hi; simpl in *; try discriminate.
  - inversion Hi; subst. eauto.
  - eauto.
Qed.

Lemma logs_log {sp : Type} (ev : event sp) (evs : list (event sp)) (w : World sp) :
  logs evs (log ev w) = logs (ev :: evs) w.
Proof. unfold logs, log. simpl. now rewrite <- app_assoc. Qed.

Lemma log_logs {sp : Type} (ev : event sp) (evs : list (event sp)) (w : World sp) :
  log ev (logs evs w) = logs (evs ++ [ev]) w.
Proof. unfold logs, log. simpl. now rewrite <- app_assoc. Qed.

Lemma logs_nil {sp : Type} (w : World sp) : logs [] w = w.
Proof. destruct w. unfold logs. simpl. now rewrite app_nil_r. Qed.

(** ** The loops of the script as traversals *)

Section Loops.

Context (S : Stats) (CONFIG : Config S) (C : Cosmology).

Lemma scale_row_traverse priors cosmo ks :
  forall acc,
    scale_row S CONFIG priors cosmo ks acc =
    let? kvs := traverse (scale_value S CONFIG priors cosmo) ks in
    ok (fold_left assign kvs acc).
Proof.
  induction ks as [|k ks IH]; intros acc; simpl; [reflexivity|].
  destruct (scale_value S CONFIG priors cosmo k) as [e|kv]; simpl; [reflexivity|].
  rewrite IH.
  destruct (traverse (scale_value S CONFIG priors cosmo) ks); reflexivity.
Qed.

Lemma scale_loop_traverse lhs priors n :
  forall s acc,
    s + n <= List.length lhs ->
    scale_loop S CONFIG lhs priors (seq s n) acc =
    let? ys := traverse (scale_one S CONFIG priors) (firstn n (skipn s lhs)) in
    ok (acc ++ ys).
Proof.
  induction n as [|n IH]; intros s acc Hlen; simpl.
  - now rewrite app_nil_r.
  - unfold item.
    destruct (nth_error lhs s) as [row|] eqn:Hrow.
    2:{ apply nth_error_None in Hrow. lia. }
    rewrite (skipn_nth_error lhs s row Hrow).
    pose proof (IH (Datatypes.S s)) as IHs.
    revert IHs. generalize (skipn (Datatypes.S s) lhs). intros rest IHs.
    cbn [firstn traverse rbind ok].
    unfold scale_one at 1.
    destruct (scale_row S CONFIG priors row (seq 0 (List.length (COSMO CONFIG))) [])
      as [e|c]; cbn [rbind]; [reflexivity|].
    rewrite IHs by lia.
    destruct (traverse (scale_one S CONFIG priors) (firstn n rest));
      cbn [rbind ok]; [reflexivity|].
    now rewrite <- app_assoc.
Qed.

(** What one run of [scale_lhs] does, case by case. *)
Lemma scale_lhs_run fname save (w : World (spectrum C)) :
  scale_lhs S CONFIG C fname save w =
  match disk w (lhs_path fname) with
  | None => (raise (FileError (lhs_path fname)), w)
  | Some lhs =>
      match build_priors S CONFIG (COSMO CONFIG) [] with
      | inl e => (inl e, logs [ReadCsv (lhs_path fname)] w)
      | inr priors =>
          match traverse (scale_one S CONFIG priors) lhs with
          | inl e => (inl e, logs [ReadCsv (lhs_path fname)] w)
          | inr cl =>
              (ok cl,
               if save
               then logs [ReadCsv (lhs_path fname);
                          SaveCsv (Cosmologies cl) "data" "cosmologies";
                          SaveList (Cosmologies cl) "data" "cosmologies"] w
               else logs [ReadCsv (lhs_path fname)] w)
          end
      end
  end.
Proof.
  unfold scale_lhs, bind, pd_read_csv, lift.
  destruct (disk w (lhs_path fname)) as [lhs|]; [|reflexivity].
  destruct (build_priors S CONFIG (COSMO CONFIG) []) as [e|priors]; [reflexivity|].
  cbn [ok].
  rewrite (scale_loop_traverse lhs priors (List.length lhs) 0 []) by lia.
  simpl skipn. rewrite firstn_all.
  destruct (traverse (scale_one S CONFIG priors) lhs) as [e|cl]; cbn [rbind ok];
    [reflexivity|].
  destruct save; unfold save_csv, save_list, ret, log, logs; cbn;
    now rewrite <- ?app_assoc.
Qed.

Lemma pk_loop_ok module z cosmologies :
  forall pks acc (w : World (spectrum C)),
    traverse (fun c => module_pk_linear C module c z) cosmologies = ok pks ->
    pk_loop C module z cosmologies acc w =
    (ok (acc ++ pks), logs (map (fun c => CallEngine c z) cosmologies) w).
Proof.
  induction cosmologies as [|c cs IH]; simpl; intros pks acc w H.
  - inversion H. unfold ret. now rewrite app_nil_r, logs_nil.
  - unfold bind, call_engine.
    destruct (module_pk_linear C module c z) as [e|pk]; simpl in H; [discriminate|].
    destruct (traverse (fun c0 => module_pk_linear C module c0 z) cs) as [e|pks'] eqn:Hcs;
      simpl in H; [discriminate|].
    inversion H; subst.
    rewrite (IH pks' (acc ++ [pk]) _ eq_refl).
    now rewrite logs_log, <- app_assoc.
Qed.

Lemma pk_loop_fails module z pre c post e :
  forall pks acc (w : World (spectrum C)),
    traverse (fun c => module_pk_linear C module c z) pre = ok pks ->
    module_pk_linear C module c z = inl e ->
    pk_loop C module z (pre ++ c :: post) acc w =
    (inl e, logs (map (fun c => CallEngine c z) (pre ++ [c])) w).
Proof.
  induction pre as [|a pre IH]; simpl; intros pks acc w Hpre Hc.
  - unfold bind, call_engine. now rewrite Hc.
  - unfold bind, call_engine.
    destruct (module_pk_linear C module a z) as [e'|pk]; simpl in Hpre; [discriminate|].
    destruct (traverse (fun c0 => module_pk_linear C module c0 z) pre) as [e'|pks'] eqn:Hp;
      simpl in Hpre; [discriminate|].
    rewrite (IH pks' (acc ++ [pk]) _ eq_refl Hc).
    now rewrite logs_log.
Qed.

(** The engine is called on a prefix of the cosmologies, whatever happens. *)
Lemma pk_loop_calls module z cosmologies :
  forall acc (w : World (spectrum C)),
    exists n, snd (pk_loop C module z cosmologies acc w) =
              logs (map (fun c => CallEngine c z) (firstn n cosmologies)) w.
Proof.
  induction cosmologies as [|c cs IH]; simpl; intros acc w.
  - exists 0. simpl. unfold ret. simpl. now rewrite logs_nil.
  - unfold bind, call_engine.
    destruct (module_pk_linear C module c z) as [e|pk].
    + exists 1. reflexivity.
    + destruct (IH (acc ++ [pk]) (log (CallEngine c z) w)) as [n Hn].
      exists (Datatypes.S n). rewrite Hn. simpl. now rewrite logs_log.
Qed.

End Loops.

(** ** Priors and scaled values *)

Section Scaling.

Context (S : Stats) (CONFIG : Config S) (C : Cosmology).

Lemma build_priors_spec params :
  forall acc priors,
    build_priors S CONFIG params acc = ok priors ->
    (forall name, In name params ->
       exists prior, prior_of S CONFIG name prior /\ dict_get priors name = Some prior) /\
    (forall name, ~ In name params -> dict_get priors name = dict_get acc name).
Proof.
  induction params as [|param rest IH]; simpl; intros acc priors H.
  - inversion H; subst. split; [contradiction | reflexivity].
  - unfold subscript in H.
    destruct (dict_get (PRIORS CONFIG) param) as [spec|] eqn:Hspec;
      cbn [rbind raise ok] in H; [|discriminate].
    destruct (generate_prior S spec) as [e|prior] eqn:Hprior;
      cbn [rbind] in H; [discriminate|].
    destruct (IH _ _ H) as [Hin Hout]. split.
    + intros name [<-|Hrest].
      * destruct (in_dec string_dec param rest) as [Hr|Hr]; [now apply Hin|].
        exists prior. split; [now exists spec|].
        rewrite (Hout param Hr). apply dict_get_set_eq.
      * now apply Hin.
    + intros name Hname.
      rewrite Hout by (intros Hr; apply Hname; now right).
      apply dict_get_set_ne. intros ->. apply Hname. now left.
Qed.

Lemma build_priors_fails params :
  forall acc e,
    build_priors S CONFIG params acc = inl e ->
    exists name, In name params /\
      (dict_get (PRIORS CONFIG) name = None /\ e = KeyError name \/
       exists spec, dict_get (PRIORS CONFIG) name = Some spec /\
                    generate_prior S spec = inl e).
Proof.
  induction params as [|param rest IH]; simpl; intros acc e H; [discriminate|].
  unfold subscript in H.
  destruct (dict_get (PRIORS CONFIG) param) as [spec|] eqn:Hspec;
    cbn [rbind raise ok] in H.
  - destruct (generate_prior S spec) as [e'|prior] eqn:Hprior; cbn [rbind] in H.
    + inversion H; subst. exists param. split; [now left|]. right. now exists spec.
    + destruct (IH _ _ H) as (name & Hin & Hcase).
      exists name. split; [now right | exact Hcase].
  - inversion H; subst. exists param. split; [now left|]. now left.
Qed.

Lemma scale_value_spec priors cosmo k name x :
  scale_value S CONFIG priors cosmo k = ok (name, x) ->
  scaled_entry S CONFIG priors cosmo k name x.
Proof.
  unfold scale_value, item, subscript, scaled_entry.
  destruct (nth_error (COSMO CONFIG) k) as [name'|]; cbn [rbind raise ok];
    [|discriminate].
  destruct (dict_get priors name') as [prior|] eqn:Hprior; cbn [rbind raise ok];
    [|discriminate].
  destruct (ppf_method S prior) as [ppf|] eqn:Hppf; [|discriminate].
  destruct (nth_error cosmo k) as [u|]; cbn [rbind raise ok]; [|discriminate].
  destruct (ppf u) as [e|x'] eqn:Hx; cbn [rbind]; [discriminate|].
  intros H. inversion H; subst. split; [reflexivity|].
  exists prior, ppf, u. auto.
Qed.

Lemma scale_one_spec priors cosmo c :
  NoDup (COSMO CONFIG) ->
  scale_one S CONFIG priors cosmo = ok c ->
  keys c = COSMO CONFIG /\
  forall k name, nth_error (COSMO CONFIG) k = Some name ->
    exists x, scaled_entry S CONFIG priors cosmo k name x /\
              nth_error c k = Some (name, x) /\ dict_get c name = Some x.
Proof.
  intros Hnd. unfold scale_one. rewrite scale_row_traverse.
  destruct (traverse (scale_value S CONFIG priors cosmo)
              (seq 0 (List.length (COSMO CONFIG)))) as [e|kvs] eqn:Hkvs;
    cbn [rbind]; [discriminate|].
  intros H. apply traverse_ok in Hkvs.
  assert (Hlen : List.length kvs = List.length (COSMO CONFIG)).
  { apply Forall2_length in Hkvs. now rewrite length_seq in Hkvs. }
  assert (Hat : forall k name, nth_error (COSMO CONFIG) k = Some name ->
            exists x, scaled_entry S CONFIG priors cosmo k name x /\
                      nth_error kvs k = Some (name, x)).
  { intros k name Hk.
    assert (Hlt : k < List.length (COSMO CONFIG)).
    { apply nth_error_Some. congruence. }
    assert (Hseq : nth_error (seq 0 (List.length (COSMO CONFIG))) k = Some k).
    { rewrite nth_error_seq. apply Nat.ltb_lt in Hlt. now rewrite Hlt. }
    destruct (Forall2_nth_error_l _ _ _ Hkvs k k Hseq) as ([name' x] & Hkv & Hval).
    apply scale_value_spec in Hval.
    assert (name' = name) by (destruct Hval as [Hn _]; congruence). subst name'.
    exists x. auto. }
  assert (Hkeys : map fst kvs = COSMO CONFIG).
  { apply nth_error_ext. intros k. rewrite nth_error_map.
    destruct (nth_error (COSMO CONFIG) k) as [name|] eqn:Hk.
    - destruct (Hat k name Hk) as (x & _ & Hkv). now rewrite Hkv.
    - apply nth_error_None in Hk.
      assert (Hnone : nth_error kvs k = None) by (apply nth_error_None; lia).
      now rewrite Hnone. }
  assert (Hc : c = kvs).
  { inversion H as [Hfold]. rewrite fold_assign_fresh; [reflexivity|].
    simpl. now rewrite Hkeys. }
  subst c. split; [exact Hkeys|].
  intros k name Hk. destruct (Hat k name Hk) as (x & Hentry & Hkv).
  exists x. split; [exact Hentry|]. split; [exact Hkv|].
  apply dict_get_In.
  - unfold keys. now rewrite Hkeys.
  - eapply nth_error_In. eassumption.
Qed.

(** What one run of [pk_linear] does, case by case. *)
Lemma pk_linear_run fname z (w : World (spectrum C)) :
  pk_linear S CONFIG C fname z w =
  match scale_lhs S CONFIG C fname true w with
  | (inl e, w1) => (inl e, w1)
  | (inr cosmologies, w1) =>
      let ev := NewEngine (Z_MIN CONFIG) (Z_MAX CONFIG) (K_MIN CONFIG) (K_MAX CONFIG) in
      match PowerSpectrum C (Z_MIN CONFIG) (Z_MAX CONFIG) (K_MIN CONFIG) (K_MAX CONFIG) with
      | inl e => (inl e, log ev w1)
      | inr module =>
          match pk_loop C module z cosmologies [] (log ev w1) with
          | (inl e, w2) => (inl e, w2)
          | (inr pk_lin, w2) =>
              (ok (cosmologies, pk_lin),
               logs [SaveCsv (Spectra pk_lin) "data" "pk_linear";
                     SaveList (Spectra pk_lin) "data" "pk_linear"] w2)
          end
      end
  end.
Proof.
  unfold pk_linear, bind, new_engine.
  destruct (scale_lhs S CONFIG C fname true w) as [[e|cs] w1]; [reflexivity|].
  cbn zeta.
  destruct (PowerSpectrum C (Z_MIN CONFIG) (Z_MAX CONFIG) (K_MIN CONFIG) (K_MAX CONFIG))
    as [e|module]; [reflexivity|].
  destruct (pk_loop C module z cs [] _) as [[e|pks] w2]; [reflexivity|].
  unfold save_csv, save_list, ret, log, logs. cbn. now rewrite <- app_assoc.
Qed.

End Scaling.

(** ** Outcomes of the two entry points *)

Section Outcomes.

Context (S : Stats) (CONFIG : Config S) (C : Cosmology).

Lemma scale_lhs_ok_inv fname save (w w' : World (spectrum C)) lhs cl :
  disk w (lhs_path fname) = Some lhs ->
  scale_lhs S CONFIG C fname save w = (ok cl, w') ->
  exists priors,
    build_priors S CONFIG (COSMO CONFIG) [] = ok priors /\
    Forall2 (fun row c => scale_one S CONFIG priors row = ok c) lhs cl /\
    w' = if save
         then logs [ReadCsv (lhs_path fname);
                    SaveCsv (Cosmologies cl) "data" "cosmologies";
                    SaveList (Cosmologies cl) "data" "cosmologies"] w
         else logs [ReadCsv (lhs_path fname)] w.
Proof.
  intros Hdisk. rewrite scale_lhs_run, Hdisk.
  destruct (build_priors S CONFIG (COSMO CONFIG) []) as [e|priors]; [discriminate|].
  destruct (traverse (scale_one S CONFIG priors) lhs) as [e|cl'] eqn:Hcl; [discriminate|].
  intros H. inversion H; subst. exists priors.
  split; [reflexivity|]. split; [now apply traverse_ok | reflexivity].
Qed.

Lemma pk_loop_fst module z cosmologies :
  forall acc (w : World (spectrum C)),
    fst (pk_loop C module z cosmologies acc w) =
    let? pks := traverse (fun c => module_pk_linear C module c z) cosmologies in
    ok (acc ++ pks).
Proof.
  induction cosmologies as [|c cs IH]; simpl; intros acc w.
  - now rewrite app_nil_r.
  - unfold bind, call_engine.
    destruct (module_pk_linear C module c z) as [e|pk]; cbn [rbind fst]; [reflexivity|].
    rewrite IH.
    destruct (traverse (fun c0 => module_pk_linear C module c0 z) cs);
      cbn [rbind ok]; [reflexivity|].
    now rewrite <- app_assoc.
Qed.

Lemma pk_linear_ok_inv fname z (w w' : World (spectrum C)) cs pks :
  pk_linear S CONFIG C fname z w = (ok (cs, pks), w') ->
  exists w1 module,
    scale_lhs S CONFIG C fname true w = (ok cs, w1) /\
    PowerSpectrum C (Z_MIN CONFIG) (Z_MAX CONFIG) (K_MIN CONFIG) (K_MAX CONFIG)
      = ok module /\
    Forall2 (fun c pk => module_pk_linear C module c z = ok pk) cs pks /\
    w' = logs (NewEngine (Z_MIN CONFIG) (Z_MAX CONFIG) (K_MIN CONFIG) (K_MAX CONFIG)
               :: map (fun c => CallEngine c z) cs
               ++ [SaveCsv (Spectra pks) "data" "pk_linear";
                   SaveList (Spectra pks) "data" "pk_linear"]) w1.
Proof.
  rewrite pk_linear_run.
  destruct (scale_lhs S CONFIG C fname true w) as [[e|cs'] w1]; [discriminate|].
  cbn zeta.
  destruct (PowerSpectrum C (Z_MIN CONFIG) (Z_MAX CONFIG) (K_MIN CONFIG) (K_MAX CONFIG))
    as [e|module]; [discriminate|].
  destruct (traverse (fun c => module_pk_linear C module c z) cs') as [e|pks'] eqn:Ht.
  - pose proof (pk_loop_fst module z cs' []
                  (log (NewEngine (Z_MIN CONFIG) (Z_MAX CONFIG) (K_MIN CONFIG)
                          (K_MAX CONFIG)) w1)) as Hf.
    rewrite Ht in Hf. cbn [rbind] in Hf.
    destruct (pk_loop C module z cs' [] _) as [[e'|p] w2]; [discriminate|].
    simpl in Hf. discriminate.
  - rewrite (pk_loop_ok C module z cs' pks' [] _ Ht). cbn [app].
    intros H. inversion H; subst.
    exists w1, module. split; [reflexivity|]. split; [reflexivity|].
    split; [now apply traverse_ok|].
    unfold logs, log. cbn. f_equal.
    rewrite <- !app_assoc. reflexivity.
Qed.

Lemma scale_lhs_ok_disk fname save (w w' : World (spectrum C)) cl :
  scale_lhs S CONFIG C fname save w = (ok cl, w') ->
  exists lhs, disk w (lhs_path fname) = Some lhs.
Proof.
  rewrite scale_lhs_run.
  destruct (disk w (lhs_path fname)) as [lhs|]; [eauto | discriminate].
Qed.

(** Without a successful return nothing is written. *)
Lemma scale_lhs_fails_world fname save (w w' : World (spectrum C)) e :
  scale_lhs S CONFIG C fname save w = (inl e, w') ->
  w' = w \/ w' = logs [ReadCsv (lhs_path fname)] w.
Proof.
  rewrite scale_lhs_run.
  destruct (disk w (lhs_path fname)) as [lhs|].
  - destruct (build_priors S CONFIG (COSMO CONFIG) []) as [e'|priors].
    + intros H. inversion H. now right.
    + destruct (traverse (scale_one S CONFIG priors) lhs) as [e'|cl].
      * intros H. inversion H. now right.
      * discriminate.
  - intros H. inversion H. now left.
Qed.

End Outcomes.

Lemma Forall2_nth_error_None {A B : Type} (R : A -> B -> Prop) (l : list A) (ys : list B) :
  Forall2 R l ys -> forall i, nth_error l i = None -> nth_error ys i = None.
Proof.
  intros H i Hi. apply Forall2_length in H.
  apply nth_error_None. apply nth_error_None in Hi. lia.
Qed.

Lemma firstn_S_nth_error {A : Type} (l : list A) :
  forall i x, nth_error l i = Some x -> firstn (Datatypes.S i) l = firstn i l ++ [x].
Proof.
  induction l as [|a l IH]; intros [|i] x H; simpl in *; try discriminate.
  - now inversion H.
  - f_equal. now apply IH.
Qed.

Lemma traverse_total {A B : Type} (f : A -> result B) (l : list A) :
  Forall (fun x => exists y, f x = ok y) l -> exists ys, traverse f l = ok ys.
Proof.
  induction 1 as [|x l [y Hy] _ [ys Hys]]; simpl.
  - now exists [].
  - rewrite Hy, Hys. now exists (y :: ys).
Qed.

Lemma Forall_firstn_index {A : Type} (P : A -> Prop) (l : list A) (i : nat) :
  (forall j x, j < i -> nth_error l j = Some x -> P x) -> Forall P (firstn i l).
Proof.
  revert i. induction l as [|a l IH]; intros [|i] H; simpl; constructor.
  - apply (H 0 a); [lia | reflexivity].
  - apply IH. intros j x Hj Hx. apply (H (Datatypes.S j) x); [lia | exact Hx].
Qed.

(** ** Runs that return *)

Section Returns.

Context (S : Stats) (CONFIG : Config S) (C : Cosmology).

Lemma scale_one_returns priors cosmo :
  scalable S CONFIG priors cosmo -> exists c, scale_one S CONFIG priors cosmo = ok c.
Proof.
  intros Hable. unfold scale_one. rewrite scale_row_traverse.
  destruct (traverse_total (scale_value S CONFIG priors cosmo)
              (seq 0 (List.length (COSMO CONFIG)))) as [kvs Hkvs].
  - apply Forall_forall. intros k Hk. apply in_seq in Hk.
    destruct (nth_error (COSMO CONFIG) k) as [name|] eqn:Hname.
    + destruct (Hable k name Hname) as (x & _ & prior & ppf & u & Hp & Hppf & Hu & Hx).
      exists (name, x). unfold scale_value, item, subscript.
      rewrite Hname. cbn [rbind ok]. rewrite Hp. cbn [rbind ok].
      rewrite Hppf, Hu. cbn [rbind ok]. now rewrite Hx.
    + apply nth_error_None in Hname. lia.
  - rewrite Hkvs. eexists. reflexivity.
Qed.

(** [scale_lhs] returns whenever the file is there, the priors can be
    constructed and every row can be scaled. *)
Lemma scale_lhs_returns fname save (w : World (spectrum C)) lhs priors :
  disk w (lhs_path fname) = Some lhs ->
  build_priors S CONFIG (COSMO CONFIG) [] = ok priors ->
  Forall (scalable S CONFIG priors) lhs ->
  exists cl, fst (scale_lhs S CONFIG C fname save w) = ok cl.
Proof.
  intros Hdisk Hpriors Hrows. rewrite scale_lhs_run, Hdisk, Hpriors.
  destruct (traverse_total (scale_one S CONFIG priors) lhs) as [cl Hcl].
  - eapply Forall_impl; [|exact Hrows]. intros row. apply scale_one_returns.
  - cbn [ok]. unfold ok in Hcl. rewrite Hcl. now exists cl.
Qed.

(** [pk_linear] returns whenever [scale_lhs] does, the engine can be
    constructed and it answers on every cosmology. *)
Lemma pk_linear_returns fname z (w w1 : World (spectrum C)) cosmologies module :
  scale_lhs S CONFIG C fname true w = (ok cosmologies, w1) ->
  PowerSpectrum C (Z_MIN CONFIG) (Z_MAX CONFIG) (K_MIN CONFIG) (K_MAX CONFIG)
    = ok module ->
  Forall (fun c => exists pk, module_pk_linear C module c z = ok pk) cosmologies ->
  exists pk_lin, fst (pk_linear S CONFIG C fname z w) = ok (cosmologies, pk_lin).
Proof.
  intros Hscale Hmod Hall.
  destruct (traverse_total _ _ Hall) as [pks Hpks].
  rewrite pk_linear_run, Hscale. cbn [ok]. rewrite Hmod. cbn [ok].
  rewrite (pk_loop_ok C module z cosmologies pks [] _ Hpks).
  now exists pks.
Qed.

End Returns.

(** * The claims *)

Section Claims.

Context (S : Stats) (CONFIG : Config S) (C : Cosmology).

(** C1. The i-th cosmology returned by [scale_lhs] has the configured
    parameter names as its keys, in the configured order, and maps the k-th
    name to the quantile function of that parameter's prior applied to the
    k-th unit value of the i-th input row (parameter names distinct). *)
Theorem C1_scale_lhs_applies_quantiles
  fname save (w w' : World (spectrum C)) lhs cosmo_list :
  NoDup (COSMO CONFIG) ->
  disk w (lhs_path fname) = Some lhs ->
  scale_lhs S CONFIG C fname save w = (ok cosmo_list, w') ->
  forall i row, nth_error lhs i = Some row ->
    exists cosmo,
      nth_error cosmo_list i = Some cosmo /\
      keys cosmo = COSMO CONFIG /\
      forall k name, nth_error (COSMO CONFIG) k = Some name ->
        exists prior ppf u x,
          prior_of S CONFIG name prior /\
          ppf_method S prior = Some ppf /\
          nth_error row k = Some u /\
          ppf u = ok x /\
          nth_error cosmo k = Some (name, x) /\
          dict_get cosmo name = Some x.
Proof.
  intros Hnd Hdisk Hrun i row Hrow.
  destruct (scale_lhs_ok_inv S CONFIG C _ _ _ _ _ _ Hdisk Hrun)
    as (priors & Hpriors & Hrows & _).
  destruct (Forall2_nth_error_l _ _ _ Hrows i row Hrow) as (cosmo & Hcosmo & Hone).
  destruct (scale_one_spec S CONFIG priors row cosmo Hnd Hone) as [Hkeys Hvals].
  exists cosmo. split; [exact Hcosmo|]. split; [exact Hkeys|].
  intros k name Hk.
  destruct (Hvals k name Hk) as (x & [_ (prior & ppf & u & Hp & Hppf & Hu & Hx)] & Hkv & Hget).
  destruct (build_priors_spec S CONFIG _ _ _ Hpriors) as [Hin _].
  destruct (Hin name (nth_error_In _ _ Hk)) as (prior' & Hof & Hp').
  assert (prior' = prior) by congruence. subst prior'.
  exists prior, ppf, u, x. auto 10.
Qed.

(** C2. [scale_lhs] returns as many cosmologies as the input has rows, and
    [pk_linear] returns as many spectra as cosmologies. *)
Theorem C2_row_counts fname (w : World (spectrum C)) lhs :
  disk w (lhs_path fname) = Some lhs ->
  (forall save cosmo_list w',
     scale_lhs S CONFIG C fname save w = (ok cosmo_list, w') ->
     List.length cosmo_list = List.length lhs) /\
  (forall z cosmologies pk_lin w',
     pk_linear S CONFIG C fname z w = (ok (cosmologies, pk_lin), w') ->
     List.length cosmologies = List.length lhs /\
     List.length pk_lin = List.length cosmologies).
Proof.
  intros Hdisk. split.
  - intros save cl w' Hrun.
    destruct (scale_lhs_ok_inv S CONFIG C _ _ _ _ _ _ Hdisk Hrun) as (priors & _ & Hrows & _).
    symmetry. eapply Forall2_length. eassumption.
  - intros z cs pks w' Hrun.
    destruct (pk_linear_ok_inv S CONFIG C _ _ _ _ _ _ Hrun) as (w1 & module & Hs & _ & Hpk & _).
    destruct (scale_lhs_ok_inv S CONFIG C _ _ _ _ _ _ Hdisk Hs) as (priors & _ & Hrows & _).
    split.
    + symmetry. eapply Forall2_length. eassumption.
    + symmetry. eapply Forall2_length. eassumption.
Qed.

(** C3. The i-th scaled cosmology depends on the i-th input row and on no
    other row, and the i-th spectrum is the answer of the engine to the i-th
    scaled cosmology, in the order of the input rows. *)
Theorem C3_rows_are_independent fname (w : World (spectrum C)) lhs :
  disk w (lhs_path fname) = Some lhs ->
  (forall save cosmo_list w1,
     scale_lhs S CONFIG C fname save w = (ok cosmo_list, w1) ->
     Forall2 (fun row cosmo =>
                exists priors,
                  build_priors S CONFIG (COSMO CONFIG) [] = ok priors /\
                  scale_one S CONFIG priors row = ok cosmo)
             lhs cosmo_list /\
     forall fname' save' (v v1 : World (spectrum C)) lhs' cosmo_list' i,
       disk v (lhs_path fname') = Some lhs' ->
       scale_lhs S CONFIG C fname' save' v = (ok cosmo_list', v1) ->
       nth_error lhs' i = nth_error lhs i ->
       nth_error cosmo_list' i = nth_error cosmo_list i) /\
  (forall z cosmologies pk_lin w',
     pk_linear S CONFIG C fname z w = (ok (cosmologies, pk_lin), w') ->
     exists module,
       PowerSpectrum C (Z_MIN CONFIG) (Z_MAX CONFIG) (K_MIN CONFIG) (K_MAX CONFIG)
         = ok module /\
       Forall2 (fun cosmo pk => module_pk_linear C module cosmo z = ok pk)
               cosmologies pk_lin).
Proof.
  intros Hdisk. split.
  - intros save cl w1 Hrun.
    destruct (scale_lhs_ok_inv S CONFIG C _ _ _ _ _ _ Hdisk Hrun)
      as (priors & Hpriors & Hrows & _).
    split.
    + eapply Forall2_impl; [|exact Hrows]. intros row c Hc. now exists priors.
    + intros fname' save' v v1 lhs' cl' i Hdisk' Hrun' Hi.
      destruct (scale_lhs_ok_inv S CONFIG C _ _ _ _ _ _ Hdisk' Hrun')
        as (priors' & Hpriors' & Hrows' & _).
      assert (priors' = priors) by (unfold ok in *; congruence). subst priors'.
      destruct (nth_error lhs i) as [row|] eqn:Hrow.
      * destruct (Forall2_nth_error_l _ _ _ Hrows i row Hrow) as (c & Hc & Hone).
        destruct (Forall2_nth_error_l _ _ _ Hrows' i row Hi) as (c' & Hc' & Hone').
        rewrite Hc, Hc'. unfold ok in *. congruence.
      * rewrite (Forall2_nth_error_None _ _ _ Hrows i Hrow).
        now rewrite (Forall2_nth_error_None _ _ _ Hrows' i Hi).
  - intros z cs pks w' Hrun.
    destruct (pk_linear_ok_inv S CONFIG C _ _ _ _ _ _ Hrun)
      as (w1 & module & _ & Hmod & Hpk & _).
    now exists module.
Qed.

(** C5. When the engine fails on row i, [pk_linear] raises that failure,
    the engine has been called on rows 0 to i and on no later row, and none
    of the events of the run persists power-spectrum results. *)
Theorem C5_engine_failure_aborts
  fname z (w w1 : World (spectrum C)) cosmologies module i cosmo e :
  scale_lhs S CONFIG C fname true w = (ok cosmologies, w1) ->
  PowerSpectrum C (Z_MIN CONFIG) (Z_MAX CONFIG) (K_MIN CONFIG) (K_MAX CONFIG)
    = ok module ->
  nth_error cosmologies i = Some cosmo ->
  (forall j c, j < i -> nth_error cosmologies j = Some c ->
     exists pk, module_pk_linear C module c z = ok pk) ->
  module_pk_linear C module cosmo z = inl e ->
  exists evs,
    pk_linear S CONFIG C fname z w = (inl e, logs evs w) /\
    filter is_call evs = map (fun c => CallEngine c z) (firstn (Datatypes.S i) cosmologies) /\
    filter is_spectra_write evs = [].
Proof.
  intros Hscale Hmod Hi Hbefore Hfail.
  destruct (scale_lhs_ok_disk S CONFIG C _ _ _ _ _ Hscale) as [lhs Hdisk].
  destruct (scale_lhs_ok_inv S CONFIG C _ _ _ _ _ _ Hdisk Hscale) as (_ & _ & _ & Hw1).
  destruct (traverse_total (fun c => module_pk_linear C module c z) (firstn i cosmologies))
    as [pks Hpks].
  { apply Forall_firstn_index. exact Hbefore. }
  set (calls := map (fun c => CallEngine (sp := spectrum C) c z)
                    (firstn (Datatypes.S i) cosmologies)).
  exists ([ReadCsv (lhs_path fname);
           SaveCsv (Cosmologies cosmologies) "data" "cosmologies";
           SaveList (Cosmologies cosmologies) "data" "cosmologies";
           NewEngine (Z_MIN CONFIG) (Z_MAX CONFIG) (K_MIN CONFIG) (K_MAX CONFIG)]
          ++ calls).
  assert (Hfilter : forall l : list cosmology,
            filter is_call (map (fun c => CallEngine (sp := spectrum C) c z) l)
            = map (fun c => CallEngine c z) l /\
            filter is_spectra_write (map (fun c => CallEngine (sp := spectrum C) c z) l)
            = []).
  { induction l as [|a l [IH1 IH2]]; simpl; [auto|]. now rewrite IH1, IH2. }
  split; [|split].
  - assert (Hloop : forall w0 : World (spectrum C),
              pk_loop C module z cosmologies [] w0 = (inl e, logs calls w0)).
    { intros w0.
      pose proof (pk_loop_fails C module z (firstn i cosmologies) cosmo
                    (skipn (Datatypes.S i) cosmologies) e pks [] w0 Hpks Hfail) as Hl.
      rewrite <- (skipn_nth_error _ _ _ Hi), firstn_skipn in Hl.
      rewrite <- (firstn_S_nth_error _ _ _ Hi) in Hl. exact Hl. }
    rewrite pk_linear_run, Hscale. cbn [ok]. rewrite Hmod. cbn [ok]. rewrite Hloop.
    rewrite logs_log, Hw1. unfold logs. cbn. now rewrite <- app_assoc.
  - rewrite filter_app. cbn. apply Hfilter.
  - rewrite filter_app. cbn. apply Hfilter.
Qed.


(** C7. With [save] false [scale_lhs] only reads its input; with [save]
    true a successful run writes the returned cosmologies, once as a table
    and once as a serialized list, under [data] and the name [cosmologies],
    and nothing else; the outcome is the same for both values of the flag. *)
Theorem C7_save_flag_controls_persistence fname (w : World (spectrum C)) :
  (snd (scale_lhs S CONFIG C fname false w) = w \/
   snd (scale_lhs S CONFIG C fname false w) = logs [ReadCsv (lhs_path fname)] w) /\
  (forall cosmo_list w',
     scale_lhs S CONFIG C fname true w = (ok cosmo_list, w') ->
     w' = logs [ReadCsv (lhs_path fname);
                SaveCsv (Cosmologies cosmo_list) "data" "cosmologies";
                SaveList (Cosmologies cosmo_list) "data" "cosmologies"] w) /\
  fst (scale_lhs S CONFIG C fname true w) = fst (scale_lhs S CONFIG C fname false w).
Proof.
  rewrite !scale_lhs_run.
  destruct (disk w (lhs_path fname)) as [lhs|].
  - destruct (build_priors S CONFIG (COSMO CONFIG) []) as [e|priors].
    + split; [now right|]. split; [discriminate | reflexivity].
    + destruct (traverse (scale_one S CONFIG priors) lhs) as [e|cl].
      * split; [now right|]. split; [discriminate | reflexivity].
      * split; [now right|]. split; [|reflexivity].
        intros cl' w' H. now inversion H.
  - split; [now left|]. split; [discriminate | reflexivity].
Qed.



End Claims.

(** ** The input path *)

Lemma prefix_app (a s : string) :
  String.prefix a s = true <-> exists b, s = (a ++ b)%string.
Proof.
  revert s. induction a as [|c a IH]; intros s.
  - split; [intros _; now exists s | intros _; now destruct s].
  - destruct s as [|c' s]; simpl.
    + split; [discriminate | intros [b Hb]; discriminate].
    + destruct (Ascii.ascii_dec c c') as [<-|Hne].
      * rewrite IH. split; intros [b Hb]; exists b; congruence.
      * split; [discriminate | intros [b Hb]; congruence].
Qed.

(** [str_contains] is the substring test. *)
Lemma str_contains_app (sub s : string) :
  str_contains sub s = true <-> exists a b, s = (a ++ sub ++ b)%string.
Proof.
  induction s as [|c s IH]; cbn [str_contains].
  - rewrite orb_false_r, prefix_app. split.
    + intros [b Hb]. now exists EmptyString, b.
    + intros (a & b & Hab). destruct a as [|c a]; [now exists b | discriminate].
  - rewrite orb_true_iff, prefix_app, IH. split.
    + intros [[b Hb] | (a & b & Hab)].
      * now exists EmptyString, b.
      * exists (String c a), b. simpl. congruence.
    + intros (a & b & Hab). destruct a as [|c' a]; simpl in Hab.
      * left. now exists b.
      * right. exists a, b. congruence.
Qed.

Lemma prefix_sep_app (fname : string) :
  String.prefix "/" (fname ++ ".csv") = String.prefix "/" fname.
Proof.
  destruct fname as [|c fname]; [reflexivity|].
  cbn [append String.prefix].
  destruct (Ascii.ascii_dec "/" c); [|reflexivity].
  now destruct fname.
Qed.

Lemma os_path_join_data (b : string) :
  os_path_join "data" b = if String.prefix "/" b then b else ("data/" ++ b)%string.
Proof. unfold os_path_join. now destruct (String.prefix "/" b). Qed.

(** C10. The extension is appended exactly when [.csv] does not
    occur anywhere in the name (a substring test, not a suffix test).  A
    name that does not start with a slash is read from [data/]; a name that
    starts with a slash is an absolute path, which [os.path.join] keeps and
    for which it drops the [data] directory. *)
Theorem C10_input_path_by_substring (fname : string) :
  (str_contains ".csv" fname = true <->
   exists a b, fname = (a ++ ".csv" ++ b)%string) /\
  (String.prefix "/" fname = false ->
   lhs_path fname =
   if str_contains ".csv" fname
   then ("data/" ++ fname)%string
   else ("data/" ++ fname ++ ".csv")%string) /\
  (String.prefix "/" fname = true ->
   lhs_path fname =
   if str_contains ".csv" fname then fname else (fname ++ ".csv")%string).
Proof.
  split; [apply str_contains_app|].
  unfold lhs_path. rewrite !os_path_join_data, prefix_sep_app.
  split; intros ->; reflexivity.
Qed.

(** * Concrete runs *)

Section Runs.

Import Toy.
Open Scope float_scope.

(** The example of the specification: one row [0.5, 0.5] and two uniform
    priors on the unit interval. *)
Example scale_lhs_unit_row :
  fst (scale_lhs stats config cosmo_engine "lhs_500" false world)
  = ok [[("param1"%string, 0.5); ("param2"%string, 0.5)]].
Proof. vm_compute. reflexivity. Qed.

Example pk_linear_two_rows :
  fst (pk_linear stats config cosmo_engine "two" 0 world)
  = ok (scaled two_rows, two_spectra).
Proof. vm_compute. reflexivity. Qed.

(** A row fails in the engine: the cosmologies are on disk, the spectra are
    not. *)
Example pk_linear_three_rows :
  pk_linear stats config cosmo_engine "three" 0 world
  = (raise (Raised "engine"),
     logs [ReadCsv "data/three.csv"%string;
           SaveCsv (Cosmologies (scaled three_rows)) "data" "cosmologies";
           SaveList (Cosmologies (scaled three_rows)) "data" "cosmologies";
           NewEngine 0 5 0.125 50;
           CallEngine [("param1"%string, 0.25); ("param2"%string, 0.5)] 0;
           CallEngine [("param1"%string, 0.875); ("param2"%string, 0.5)] 0] world).
Proof. vm_compute. reflexivity. Qed.

Example lhs_path_backup : lhs_path "lhs.csv.bak" = "data/lhs.csv.bak"%string.
Proof. reflexivity. Qed.

Example lhs_path_plain : lhs_path "lhs_500" = "data/lhs_500.csv"%string.
Proof. reflexivity. Qed.

Example lhs_path_absolute : lhs_path "/tmp/lhs.csv" = "/tmp/lhs.csv"%string.
Proof. reflexivity. Qed.

(** A summary function of the namespace is accepted as a prior; the run
    breaks only when the first row looks for its quantile function. *)
Example generate_prior_describe :
  generate_prior stats describe_prior = ok (DescribeResult 3).
Proof. reflexivity. Qed.

End Runs.

(** * The claims on the concrete instance *)

Lemma C1_witness :
  NoDup (COSMO Toy.config) /\
  disk Toy.world (lhs_path "lhs_500") = Some Toy.unit_rows /\
  exists cosmo,
    nth_error (Toy.scaled Toy.unit_rows) 0 = Some cosmo /\
    keys cosmo = COSMO Toy.config /\
    forall k name, nth_error (COSMO Toy.config) k = Some name ->
      exists prior ppf u x,
        prior_of Toy.stats Toy.config name prior /\
        ppf_method Toy.stats prior = Some ppf /\
        nth_error [0.5; 0.5]%float k = Some u /\
        ppf u = ok x /\
        nth_error cosmo k = Some (name, x) /\
        dict_get cosmo name = Some x.
Proof.
  assert (Hnd : NoDup (COSMO Toy.config)).
  { repeat constructor; simpl; intuition discriminate. }
  split; [exact Hnd|]. split; [reflexivity|].
  apply (C1_scale_lhs_applies_quantiles Toy.stats Toy.config Toy.cosmo_engine
           "lhs_500" false Toy.world
           (logs [ReadCsv "data/lhs_500.csv"] Toy.world)
           Toy.unit_rows (Toy.scaled Toy.unit_rows) Hnd eq_refl eq_refl
           0 [0.5; 0.5]%float eq_refl).
Defined.

(** C1 does not hold for every configuration: when a parameter name is
    listed twice, its key holds the quantile of the last column listed
    under it, not of the first. *)
Lemma C1_counterexample :
  ~ (forall (CONFIG : Config Toy.stats) fname save
            (w w' : World (spectrum Toy.cosmo_engine)) lhs cosmo_list,
       disk w (lhs_path fname) = Some lhs ->
       scale_lhs Toy.stats CONFIG Toy.cosmo_engine fname save w = (ok cosmo_list, w') ->
       forall i row, nth_error lhs i = Some row ->
         exists cosmo,
           nth_error cosmo_list i = Some cosmo /\
           forall k name, nth_error (COSMO CONFIG) k = Some name ->
             exists prior ppf u x,
               prior_of Toy.stats CONFIG name prior /\
               ppf_method Toy.stats prior = Some ppf /\
               nth_error row k = Some u /\
               ppf u = ok x /\
               dict_get cosmo name = Some x).
Proof.
  intros H.
  destruct (H Variants.dup_config "wide" false Variants.world
              (logs [ReadCsv "data/wide.csv"] Variants.world)
              Variants.wide_rows
              [[("param1", 0.75%float); ("param2", 0.5%float)];
               [("param1", 0.125%float); ("param2", 0.75%float)]]
              eq_refl eq_refl 0 [0.25; 0.5; 0.75]%float eq_refl)
    as (cosmo & Hcosmo & Hvals).
  inversion Hcosmo; subst cosmo.
  destruct (Hvals 0 "param1" eq_refl)
    as (prior & ppf & u & x & (spec & Hspec & Hgen) & Hppf & Hu & Hx & Hget).
  inversion Hspec; subst spec.
  inversion Hgen; subst prior.
  inversion Hppf; subst ppf.
  inversion Hu; subst u.
  inversion Hx; subst x.
  apply (f_equal (fun o => match o with
                           | Some y => PrimFloat.ltb 0.5%float y
                           | None => false
                           end)) in Hget.
  vm_compute in Hget. discriminate.
Qed.

Lemma C2_witness :
  disk Toy.world (lhs_path "two") = Some Toy.two_rows /\
  List.length (Toy.scaled Toy.two_rows) = List.length Toy.two_rows /\
  List.length Toy.two_spectra = List.length (Toy.scaled Toy.two_rows).
Proof.
  split; [reflexivity|].
  destruct (C2_row_counts Toy.stats Toy.config Toy.cosmo_engine "two" Toy.world
              Toy.two_rows eq_refl) as [_ Hpk].
  apply (Hpk 0%float (Toy.scaled Toy.two_rows) Toy.two_spectra
           (snd (pk_linear Toy.stats Toy.config Toy.cosmo_engine "two" 0%float Toy.world))).
  vm_compute. reflexivity.
Defined.

Lemma C3_witness :
  disk Toy.world (lhs_path "two") = Some Toy.two_rows /\
  nth_error (Toy.scaled Toy.two_bis_rows) 1 = nth_error (Toy.scaled Toy.two_rows) 1 /\
  exists module,
    PowerSpectrum Toy.cosmo_engine 0%float 5%float 0.125%float 50%float = ok module /\
    Forall2 (fun cosmo pk => module_pk_linear Toy.cosmo_engine module cosmo 0%float = ok pk)
            (Toy.scaled Toy.two_rows) Toy.two_spectra.
Proof.
  split; [reflexivity|].
  destruct (C3_rows_are_independent Toy.stats Toy.config Toy.cosmo_engine "two"
              Toy.world Toy.two_rows eq_refl) as [Hscale Hpk].
  split.
  - destruct (Hscale false (Toy.scaled Toy.two_rows)
                (logs [ReadCsv "data/two.csv"] Toy.world) eq_refl) as [_ Hind].
    apply (Hind "two_bis" false Toy.world
             (logs [ReadCsv "data/two_bis.csv"] Toy.world)
             Toy.two_bis_rows (Toy.scaled Toy.two_bis_rows) 1 eq_refl eq_refl eq_refl).
  - apply (Hpk 0%float (Toy.scaled Toy.two_rows) Toy.two_spectra
             (snd (pk_linear Toy.stats Toy.config Toy.cosmo_engine "two" 0%float Toy.world))).
    vm_compute. reflexivity.
Defined.

Lemma C5_witness :
  scale_lhs Toy.stats Toy.config Toy.cosmo_engine "three" true Toy.world
  = (ok (Toy.scaled Toy.three_rows),
     logs [ReadCsv "data/three.csv";
           SaveCsv (Cosmologies (Toy.scaled Toy.three_rows)) "data" "cosmologies";
           SaveList (Cosmologies (Toy.scaled Toy.three_rows)) "data" "cosmologies"]
          Toy.world) /\
  nth_error (Toy.scaled Toy.three_rows) 1
  = Some [("param1", 0.875%float); ("param2", 0.5%float)] /\
  module_pk_linear Toy.cosmo_engine tt [("param1", 0.875%float); ("param2", 0.5%float)]
    0%float = inl (Raised "engine") /\
  exists evs,
    pk_linear Toy.stats Toy.config Toy.cosmo_engine "three" 0%float Toy.world
    = (inl (Raised "engine"), logs evs Toy.world) /\
    filter is_call evs
    = map (fun c => CallEngine c 0%float) (firstn 2 (Toy.scaled Toy.three_rows)) /\
    filter is_spectra_write evs = [].
Proof.
  split; [reflexivity|]. split; [reflexivity|]. split; [reflexivity|].
  apply (C5_engine_failure_aborts Toy.stats Toy.config Toy.cosmo_engine
           "three" 0%float Toy.world _ (Toy.scaled Toy.three_rows) tt 1
           [("param1", 0.875%float); ("param2", 0.5%float)] (Raised "engine")
           eq_refl eq_refl eq_refl).
  - intros j c Hj Hc. destruct j as [|j]; [|lia].
    inversion Hc; subst. eexists. reflexivity.
  - reflexivity.
Defined.


Lemma C7_witness :
  scale_lhs Toy.stats Toy.config Toy.cosmo_engine "two" true Toy.world
  = (ok (Toy.scaled Toy.two_rows),
     snd (scale_lhs Toy.stats Toy.config Toy.cosmo_engine "two" true Toy.world)) /\
  snd (scale_lhs Toy.stats Toy.config Toy.cosmo_engine "two" true Toy.world)
  = logs [ReadCsv (lhs_path "two");
          SaveCsv (Cosmologies (Toy.scaled Toy.two_rows)) "data" "cosmologies";
          SaveList (Cosmologies (Toy.scaled Toy.two_rows)) "data" "cosmologies"]
         Toy.world.
Proof.
  split; [reflexivity|].
  destruct (C7_save_flag_controls_persistence Toy.stats Toy.config Toy.cosmo_engine
              "two" Toy.world) as (_ & Hsave & _).
  apply (Hsave (Toy.scaled Toy.two_rows)). reflexivity.
Defined.




Lemma C10_witness :
  String.prefix "/" "lhs.csv.bak" = false /\
  lhs_path "lhs.csv.bak" = "data/lhs.csv.bak".
Proof.
  split; [reflexivity|].
  destruct (C10_input_path_by_substring "lhs.csv.bak") as (_ & Hrel & _).
  apply (Hrel eq_refl).
Defined.

(** C10 does not hold for every name: for an absolute name the file read
    is the name itself, not a file under [data/]. *)
Lemma C10_counterexample :
  ~ (forall fname,
       lhs_path fname =
       if str_contains ".csv" fname
       then ("data/" ++ fname)%string
       else ("data/" ++ fname ++ ".csv")%string).
Proof. intros H. specialize (H "/tmp/lhs.csv"). discriminate. Qed.

(** * Further properties of the script *)

(** ** Failures before the rows are scaled *)

Section Failures.

Context (S : Stats) (CONFIG : Config S) (C : Cosmology).

(** X1. A missing or unreadable input file stops both entry points at
    once: the file error is raised whatever the configuration, no prior and
    no engine is constructed and nothing is written. *)
Theorem missing_input_stops_everything fname save z (w : World (spectrum C)) :
  disk w (lhs_path fname) = None ->
  scale_lhs S CONFIG C fname save w = (raise (FileError (lhs_path fname)), w) /\
  pk_linear S CONFIG C fname z w = (raise (FileError (lhs_path fname)), w).
Proof.
  intros Hdisk.
  assert (Hscale : forall b, scale_lhs S CONFIG C fname b w
                             = (raise (FileError (lhs_path fname)), w)).
  { intros b. now rewrite scale_lhs_run, Hdisk. }
  split; [apply Hscale|].
  now rewrite pk_linear_run, Hscale.
Qed.

Lemma build_priors_cons param rest acc :
  build_priors S CONFIG (param :: rest) acc =
  let? dist := prior_result S CONFIG param in
  build_priors S CONFIG rest (dict_set acc param dist).
Proof.
  unfold prior_result. cbn [build_priors].
  destruct (subscript (PRIORS CONFIG) param); reflexivity.
Qed.

Lemma build_priors_first_failure pre name post e :
  Forall (fun n => exists p, prior_result S CONFIG n = ok p) pre ->
  prior_result S CONFIG name = inl e ->
  forall acc, build_priors S CONFIG (pre ++ name :: post) acc = inl e.
Proof.
  intros Hpre Hname. induction Hpre as [|n pre [p Hp] _ IH]; intros acc.
  - cbn [app]. now rewrite build_priors_cons, Hname.
  - cbn [app]. rewrite build_priors_cons, Hp. cbn [rbind ok]. apply IH.
Qed.

(** X4. The first parameter, in the configured order, whose prior cannot
    be obtained decides the failure of [scale_lhs]: its exception is raised
    for every input frame, after the read and before anything is written. *)
Theorem first_failing_prior_decides
  fname save (w : World (spectrum C)) lhs pre name post e :
  disk w (lhs_path fname) = Some lhs ->
  COSMO CONFIG = pre ++ name :: post ->
  Forall (fun n => exists p, prior_result S CONFIG n = ok p) pre ->
  prior_result S CONFIG name = inl e ->
  scale_lhs S CONFIG C fname save w = (inl e, logs [ReadCsv (lhs_path fname)] w).
Proof.
  intros Hdisk Hcosmo Hpre Hname.
  rewrite scale_lhs_run, Hdisk, Hcosmo.
  now rewrite (build_priors_first_failure pre name post e Hpre Hname).
Qed.

(** A parameter without an entry in the priors is a [KeyError]. *)
Lemma prior_result_missing name :
  dict_get (PRIORS CONFIG) name = None ->
  prior_result S CONFIG name = raise (KeyError name).
Proof. intros H. unfold prior_result, subscript. now rewrite H. Qed.

Lemma scale_one_scalable priors cosmo c :
  scale_one S CONFIG priors cosmo = ok c -> scalable S CONFIG priors cosmo.
Proof.
  unfold scale_one. rewrite scale_row_traverse.
  destruct (traverse (scale_value S CONFIG priors cosmo)
              (seq 0 (List.length (COSMO CONFIG)))) as [e|kvs] eqn:Hkvs;
    cbn [rbind]; [discriminate|].
  intros _ k name Hk. apply traverse_ok in Hkvs.
  assert (Hlt : k < List.length (COSMO CONFIG)).
  { apply nth_error_Some. congruence. }
  assert (Hseq : nth_error (seq 0 (List.length (COSMO CONFIG))) k = Some k).
  { rewrite nth_error_seq. apply Nat.ltb_lt in Hlt. now rewrite Hlt. }
  destruct (Forall2_nth_error_l _ _ _ Hkvs k k Hseq) as ([name' x] & _ & Hval).
  apply scale_value_spec in Hval.
  assert (name' = name) by (destruct Hval as [Hn _]; congruence). subst name'.
  now exists x.
Qed.

(** X5. [scale_lhs] returns exactly when the input file is there, every
    configured parameter has a prior that can be constructed, and every
    row offers each parameter a unit value its quantile function accepts. *)
Theorem scale_lhs_returns_iff fname save (w : World (spectrum C)) :
  (exists cl, fst (scale_lhs S CONFIG C fname save w) = ok cl) <->
  (exists lhs priors,
     disk w (lhs_path fname) = Some lhs /\
     build_priors S CONFIG (COSMO CONFIG) [] = ok priors /\
     Forall (scalable S CONFIG priors) lhs).
Proof.
  split.
  - intros [cl Hcl]. rewrite scale_lhs_run in Hcl.
    destruct (disk w (lhs_path fname)) as [lhs|]; [|discriminate].
    destruct (build_priors S CONFIG (COSMO CONFIG) []) as [e|priors]; [discriminate|].
    destruct (traverse (scale_one S CONFIG priors) lhs) as [e|cl'] eqn:Ht; [discriminate|].
    exists lhs, priors. split; [reflexivity|]. split; [reflexivity|].
    apply traverse_ok in Ht. clear Hcl.
    induction Ht as [|row c lhs cl' Hrow _ IH]; constructor; [|exact IH].
    eapply scale_one_scalable. eassumption.
  - intros (lhs & priors & Hdisk & Hpriors & Hrows).
    eapply scale_lhs_returns; eassumption.
Qed.

(** X6. The first row that cannot be scaled decides the failure of
    [scale_lhs]: its exception is raised and, also with [save] true, none
    of the rows scaled before it is written. *)
Theorem failing_row_discards_all
  fname save (w : World (spectrum C)) pre row post priors e :
  disk w (lhs_path fname) = Some (pre ++ row :: post) ->
  build_priors S CONFIG (COSMO CONFIG) [] = ok priors ->
  Forall (scalable S CONFIG priors) pre ->
  scale_one S CONFIG priors row = inl e ->
  scale_lhs S CONFIG C fname save w = (inl e, logs [ReadCsv (lhs_path fname)] w).
Proof.
  intros Hdisk Hpriors Hpre Hrow.
  destruct (traverse_total (scale_one S CONFIG priors) pre) as [cl Hcl].
  { eapply Forall_impl; [|exact Hpre]. intros r. apply scale_one_returns. }
  rewrite scale_lhs_run, Hdisk, Hpriors. cbn [ok].
  now rewrite (traverse_fails (scale_one S CONFIG priors) pre post row cl e Hcl Hrow).
Qed.

End Failures.

(** ** The name of the input *)

(** X3. The path [scale_lhs] reads always contains [.csv], whatever the
    name it is given. *)
Theorem lhs_path_has_extension (fname : string) :
  str_contains ".csv" (lhs_path fname) = true.
Proof.
  unfold lhs_path. rewrite !os_path_join_data, prefix_sep_app.
  destruct (str_contains ".csv" fname) eqn:Hin.
  - destruct (String.prefix "/" fname); [exact Hin|].
    apply str_contains_app in Hin. destruct Hin as (a & b & ->).
    apply str_contains_app. now exists ("data/" ++ a)%string, b.
  - apply str_contains_app.
    destruct (String.prefix "/" fname).
    + now exists fname, EmptyString.
    + now exists ("data/" ++ fname)%string, EmptyString.
Qed.

(** X2. The extension is optional: a name without [.csv] and the same name
    with [.csv] appended make [scale_lhs] read the same file and do the
    same. *)
Theorem extension_is_optional
  (S : Stats) (CONFIG : Config S) (C : Cosmology) base save (w : World (spectrum C)) :
  str_contains ".csv" base = false ->
  lhs_path (base ++ ".csv") = lhs_path base /\
  scale_lhs S CONFIG C (base ++ ".csv") save w = scale_lhs S CONFIG C base save w.
Proof.
  intros Hbase.
  assert (Hpath : lhs_path (base ++ ".csv") = lhs_path base).
  { unfold lhs_path. rewrite Hbase.
    assert (Hin : str_contains ".csv" (base ++ ".csv") = true).
    { apply str_contains_app. now exists base, EmptyString. }
    now rewrite Hin. }
  split; [exact Hpath|].
  now rewrite !scale_lhs_run, Hpath.
Qed.

(** ** Rows and columns *)

Lemma traverse_ext {A B : Type} (f g : A -> result B) (l : list A) :
  (forall x, In x l -> f x = g x) -> traverse f l = traverse g l.
Proof.
  induction l as [|x l IH]; intros H; simpl; [reflexivity|].
  rewrite (H x) by now left.
  destruct (g x); cbn [rbind]; [reflexivity|].
  rewrite IH; [reflexivity|]. intros y Hy. apply H. now right.
Qed.

Lemma traverse_map {A A' B : Type} (f : A' -> result B) (h : A -> A') (l : list A) :
  traverse f (map h l) = traverse (fun x => f (h x)) l.
Proof.
  induction l as [|x l IH]; simpl; [reflexivity|]. now rewrite IH.
Qed.

(** Every element either passes or raises [e]; one that raises [e] makes
    the traversal raise [e]. *)
Lemma traverse_uniform_failure {A B : Type} (f : A -> result B) (e : exn) (l : list A) :
  (forall x, In x l -> (exists y, f x = ok y) \/ f x = inl e) ->
  Exists (fun x => f x = inl e) l ->
  traverse f l = inl e.
Proof.
  induction l as [|x l IH]; intros Hall Hex; [inversion Hex|].
  simpl. destruct (Hall x (or_introl eq_refl)) as [[y Hy]|Hx].
  - rewrite Hy. cbn [rbind ok].
    rewrite IH; [reflexivity | |].
    + intros x' Hx'. apply Hall. now right.
    + inversion Hex as [? ? Hx|? ? Hl]; subst; [|exact Hl].
      unfold ok in Hy. congruence.
  - now rewrite Hx.
Qed.

Section Columns.

Context (S : Stats) (CONFIG : Config S) (C : Cosmology).

Lemma scale_one_firstn priors cosmo :
  scale_one S CONFIG priors (firstn (List.length (COSMO CONFIG)) cosmo)
  = scale_one S CONFIG priors cosmo.
Proof.
  unfold scale_one. rewrite !scale_row_traverse.
  rewrite (traverse_ext
             (scale_value S CONFIG priors (firstn (List.length (COSMO CONFIG)) cosmo))
             (scale_value S CONFIG priors cosmo)); [reflexivity|].
  intros k Hk. apply in_seq in Hk. unfold scale_value, item.
  rewrite nth_error_firstn.
  assert (Hlt : Nat.ltb k (List.length (COSMO CONFIG)) = true)
    by (apply Nat.ltb_lt; lia).
  now rewrite Hlt.
Qed.

(** X7. Only the first [len(COSMO)] columns of the frame are used, by
    position: two frames that agree on them give the same outcome. *)
Theorem extra_columns_are_ignored
  fname fname' save save' (w w' : World (spectrum C)) lhs lhs' :
  disk w (lhs_path fname) = Some lhs ->
  disk w' (lhs_path fname') = Some lhs' ->
  map (firstn (List.length (COSMO CONFIG))) lhs
  = map (firstn (List.length (COSMO CONFIG))) lhs' ->
  fst (scale_lhs S CONFIG C fname save w) = fst (scale_lhs S CONFIG C fname' save' w').
Proof.
  intros Hdisk Hdisk' Hcols. rewrite !scale_lhs_run, Hdisk, Hdisk'.
  destruct (build_priors S CONFIG (COSMO CONFIG) []) as [e|priors]; [reflexivity|].
  assert (Hcut : forall l,
            traverse (scale_one S CONFIG priors) l =
            traverse (scale_one S CONFIG priors)
                     (map (firstn (List.length (COSMO CONFIG))) l)).
  { intros l. rewrite traverse_map. apply traverse_ext.
    intros row _. symmetry. apply scale_one_firstn. }
  rewrite (Hcut lhs), (Hcut lhs'), Hcols.
  destruct (traverse (scale_one S CONFIG priors)
              (map (firstn (List.length (COSMO CONFIG))) lhs')); reflexivity.
Qed.

Lemma scale_value_in_range priors cosmo k :
  build_priors S CONFIG (COSMO CONFIG) [] = ok priors ->
  quantiles_total S priors ->
  k < List.length (COSMO CONFIG) ->
  k < List.length cosmo ->
  exists kv, scale_value S CONFIG priors cosmo k = ok kv.
Proof.
  intros Hpriors Htotal Hk Hrow.
  destruct (nth_error (COSMO CONFIG) k) as [name|] eqn:Hname;
    [|apply nth_error_None in Hname; lia].
  destruct (nth_error cosmo k) as [u|] eqn:Hu; [|apply nth_error_None in Hu; lia].
  destruct (build_priors_spec S CONFIG _ _ _ Hpriors) as [Hin _].
  destruct (Hin name (nth_error_In _ _ Hname)) as (prior & _ & Hprior).
  destruct (Htotal name prior Hprior) as (ppf & Hppf & Hall).
  destruct (Hall u) as [x Hx].
  exists (name, x). unfold scale_value, item, subscript.
  rewrite Hname. cbn [rbind ok]. rewrite Hprior. cbn [rbind ok].
  rewrite Hppf, Hu. cbn [rbind ok]. now rewrite Hx.
Qed.

Lemma scale_value_out_of_range priors cosmo :
  build_priors S CONFIG (COSMO CONFIG) [] = ok priors ->
  quantiles_total S priors ->
  List.length cosmo < List.length (COSMO CONFIG) ->
  scale_value S CONFIG priors cosmo (List.length cosmo) = inl IndexError.
Proof.
  intros Hpriors Htotal Hshort.
  destruct (nth_error (COSMO CONFIG) (List.length cosmo)) as [name|] eqn:Hname;
    [|apply nth_error_None in Hname; lia].
  assert (Hu : nth_error cosmo (List.length cosmo) = None)
    by (apply nth_error_None; lia).
  destruct (build_priors_spec S CONFIG _ _ _ Hpriors) as [Hin _].
  destruct (Hin name (nth_error_In _ _ Hname)) as (prior & _ & Hprior).
  destruct (Htotal name prior Hprior) as (ppf & Hppf & _).
  unfold scale_value, item, subscript.
  rewrite Hname. cbn [rbind ok]. rewrite Hprior. cbn [rbind ok].
  now rewrite Hppf, Hu.
Qed.

Lemma scale_one_short priors cosmo :
  build_priors S CONFIG (COSMO CONFIG) [] = ok priors ->
  quantiles_total S priors ->
  List.length cosmo < List.length (COSMO CONFIG) ->
  scale_one S CONFIG priors cosmo = inl IndexError.
Proof.
  intros Hpriors Htotal Hshort. unfold scale_one. rewrite scale_row_traverse.
  replace (List.length (COSMO CONFIG))
    with (List.length cosmo
          + Datatypes.S (List.length (COSMO CONFIG) - Datatypes.S (List.length cosmo)))
    at 1 by lia.
  rewrite seq_app. cbn [seq plus].
  destruct (traverse_total (scale_value S CONFIG priors cosmo)
              (seq 0 (List.length cosmo))) as [kvs Hkvs].
  { apply Forall_forall. intros k Hk. apply in_seq in Hk.
    apply scale_value_in_range; auto; lia. }
  now rewrite (traverse_fails _ _ _ _ kvs IndexError Hkvs
                 (scale_value_out_of_range priors cosmo Hpriors Htotal Hshort)).
Qed.

Lemma scale_one_wide priors cosmo :
  build_priors S CONFIG (COSMO CONFIG) [] = ok priors ->
  quantiles_total S priors ->
  List.length (COSMO CONFIG) <= List.length cosmo ->
  exists c, scale_one S CONFIG priors cosmo = ok c.
Proof.
  intros Hpriors Htotal Hwide. unfold scale_one. rewrite scale_row_traverse.
  destruct (traverse_total (scale_value S CONFIG priors cosmo)
              (seq 0 (List.length (COSMO CONFIG)))) as [kvs Hkvs].
  { apply Forall_forall. intros k Hk. apply in_seq in Hk.
    apply scale_value_in_range; auto; lia. }
  rewrite Hkvs. eexists. reflexivity.
Qed.

(** X8. With priors whose quantile functions always answer, a frame with a
    row that has fewer columns than there are parameters makes [scale_lhs]
    raise [IndexError], and nothing is written. *)
Theorem short_row_raises_IndexError fname save (w : World (spectrum C)) lhs priors :
  disk w (lhs_path fname) = Some lhs ->
  build_priors S CONFIG (COSMO CONFIG) [] = ok priors ->
  quantiles_total S priors ->
  Exists (fun row => List.length row < List.length (COSMO CONFIG)) lhs ->
  scale_lhs S CONFIG C fname save w
  = (inl IndexError, logs [ReadCsv (lhs_path fname)] w).
Proof.
  intros Hdisk Hpriors Htotal Hshort.
  rewrite scale_lhs_run, Hdisk, Hpriors. cbn [ok].
  rewrite (traverse_uniform_failure (scale_one S CONFIG priors) IndexError lhs);
    [reflexivity | |].
  - intros row _.
    destruct (le_lt_dec (List.length (COSMO CONFIG)) (List.length row)) as [Hw|Hs].
    + left. now apply scale_one_wide.
    + right. now apply scale_one_short.
  - eapply Exists_impl; [|exact Hshort]. intros row. now apply scale_one_short.
Qed.

(** X9. With priors whose quantile functions always answer, the widths of
    the rows alone decide: [scale_lhs] returns exactly when every row has at
    least as many columns as there are parameters. *)
Theorem scale_lhs_returns_iff_wide fname save (w : World (spectrum C)) lhs priors :
  disk w (lhs_path fname) = Some lhs ->
  build_priors S CONFIG (COSMO CONFIG) [] = ok priors ->
  quantiles_total S priors ->
  ((exists cl, fst (scale_lhs S CONFIG C fname save w) = ok cl) <->
   Forall (fun row => List.length (COSMO CONFIG) <= List.length row) lhs).
Proof.
  intros Hdisk Hpriors Htotal. split.
  - intros [cl Hcl]. apply Forall_forall. intros row Hrow.
    destruct (le_lt_dec (List.length (COSMO CONFIG)) (List.length row)) as [Hw|Hs];
      [exact Hw|].
    rewrite scale_lhs_run, Hdisk, Hpriors in Hcl. cbn [ok] in Hcl.
    rewrite (traverse_uniform_failure (scale_one S CONFIG priors) IndexError lhs)
      in Hcl; [discriminate | |].
    + intros r _.
      destruct (le_lt_dec (List.length (COSMO CONFIG)) (List.length r)) as [Hw'|Hs'].
      * left. now apply scale_one_wide.
      * right. now apply scale_one_short.
    + apply Exists_exists. exists row. split; [exact Hrow|]. now apply scale_one_short.
  - intros Hwide. rewrite scale_lhs_run, Hdisk, Hpriors. cbn [ok].
    destruct (traverse_total (scale_one S CONFIG priors) lhs) as [cl Hcl].
    + eapply Forall_impl; [|exact Hwide]. intros row. now apply scale_one_wide.
    + unfold ok in Hcl. rewrite Hcl. now exists cl.
Qed.

End Columns.

(** ** Repeated parameter names *)

Section DictFacts.

Context {A : Type}.

Implicit Types (d : dict A) (k : string) (v : A).

Lemma keys_dict_set d k v k' :
  In k' (keys (dict_set d k v)) <-> k' = k \/ In k' (keys d).
Proof.
  induction d as [|[k0 v0] d IH]; simpl.
  - intuition auto.
  - destruct (String.eqb_spec k0 k) as [->|Hk]; simpl.
    + intuition auto.
    + rewrite IH. intuition auto.
Qed.

Lemma NoDup_keys_dict_set d k v : NoDup (keys d) -> NoDup (keys (dict_set d k v)).
Proof.
  induction d as [|[k0 v0] d IH]; simpl; intros Hnd.
  - constructor; [intros [] | constructor].
  - inversion Hnd as [|? ? Hnotin Hnd']; subst.
    destruct (String.eqb_spec k0 k) as [->|Hk]; simpl.
    + now constructor.
    + constructor; [|now apply IH].
      intros Hin. apply keys_dict_set in Hin. destruct Hin as [->|Hin]; auto.
Qed.

Lemma keys_fold_assign (kvs : list (string * A)) :
  forall d k', In k' (keys (fold_left assign kvs d)) <->
               In k' (keys d) \/ In k' (map fst kvs).
Proof.
  induction kvs as [|[k v] kvs IH]; intros d k'; simpl.
  - intuition auto.
  - rewrite IH. unfold assign. simpl. rewrite keys_dict_set. intuition auto.
Qed.

Lemma NoDup_keys_fold_assign (kvs : list (string * A)) :
  forall d, NoDup (keys d) -> NoDup (keys (fold_left assign kvs d)).
Proof.
  induction kvs as [|[k v] kvs IH]; intros d Hnd; simpl; [exact Hnd|].
  apply IH. now apply NoDup_keys_dict_set.
Qed.

Lemma dict_get_fold_assign_other (kvs : list (string * A)) k :
  ~ In k (map fst kvs) ->
  forall d, dict_get (fold_left assign kvs d) k = dict_get d k.
Proof.
  induction kvs as [|[k0 v0] kvs IH]; intros Hnotin d; simpl; [reflexivity|].
  rewrite IH by (intros Hin; apply Hnotin; now right).
  unfold assign. simpl. apply dict_get_set_ne.
  intros ->. apply Hnotin. now left.
Qed.

(** The last assignment to a key is the one a lookup sees. *)
Lemma dict_get_fold_assign_last (kvs1 kvs2 : list (string * A)) k v d :
  ~ In k (map fst kvs2) ->
  dict_get (fold_left assign (kvs1 ++ (k, v) :: kvs2) d) k = Some v.
Proof.
  intros Hnotin. rewrite fold_left_app. cbn [fold_left].
  rewrite dict_get_fold_assign_other by exact Hnotin.
  unfold assign at 1. simpl. apply dict_get_set_eq.
Qed.

End DictFacts.

Section Repeats.

Context (S : Stats) (CONFIG : Config S) (C : Cosmology).

Lemma scale_one_entries priors cosmo c :
  scale_one S CONFIG priors cosmo = ok c ->
  exists kvs,
    c = fold_left assign kvs [] /\
    map fst kvs = COSMO CONFIG /\
    forall k name, nth_error (COSMO CONFIG) k = Some name ->
      exists x, scaled_entry S CONFIG priors cosmo k name x /\
                nth_error kvs k = Some (name, x).
Proof.
  unfold scale_one. rewrite scale_row_traverse.
  destruct (traverse (scale_value S CONFIG priors cosmo)
              (seq 0 (List.length (COSMO CONFIG)))) as [e|kvs] eqn:Hkvs;
    cbn [rbind]; [discriminate|].
  intros H. apply traverse_ok in Hkvs. exists kvs.
  assert (Hlen : List.length kvs = List.length (COSMO CONFIG)).
  { apply Forall2_length in Hkvs. now rewrite length_seq in Hkvs. }
  assert (Hat : forall k name, nth_error (COSMO CONFIG) k = Some name ->
            exists x, scaled_entry S CONFIG priors cosmo k name x /\
                      nth_error kvs k = Some (name, x)).
  { intros k name Hk.
    assert (Hlt : k < List.length (COSMO CONFIG)).
    { apply nth_error_Some. congruence. }
    assert (Hseq : nth_error (seq 0 (List.length (COSMO CONFIG))) k = Some k).
    { rewrite nth_error_seq. apply Nat.ltb_lt in Hlt. now rewrite Hlt. }
    destruct (Forall2_nth_error_l _ _ _ Hkvs k k Hseq) as ([name' x] & Hkv & Hval).
    apply scale_value_spec in Hval.
    assert (name' = name) by (destruct Hval as [Hn _]; congruence). subst name'.
    exists x. auto. }
  split; [now inversion H|]. split; [|exact Hat].
  apply nth_error_ext. intros k. rewrite nth_error_map.
  destruct (nth_error (COSMO CONFIG) k) as [name|] eqn:Hk.
  - destruct (Hat k name Hk) as (x & _ & Hkv). now rewrite Hkv.
  - apply nth_error_None in Hk.
    assert (Hnone : nth_error kvs k = None) by (apply nth_error_None; lia).
    now rewrite Hnone.
Qed.

(** X10. Whether or not parameter names repeat in the configuration,
    every cosmology [scale_lhs] returns has pairwise distinct keys, and its
    keys are exactly the configured names. *)
Theorem cosmology_keys_are_the_names
  fname save (w w' : World (spectrum C)) lhs cosmo_list :
  disk w (lhs_path fname) = Some lhs ->
  scale_lhs S CONFIG C fname save w = (ok cosmo_list, w') ->
  Forall (fun cosmo =>
            NoDup (keys cosmo) /\
            forall name, In name (keys cosmo) <-> In name (COSMO CONFIG))
         cosmo_list.
Proof.
  intros Hdisk Hrun.
  destruct (scale_lhs_ok_inv S CONFIG C _ _ _ _ _ _ Hdisk Hrun)
    as (priors & _ & Hrows & _).
  clear Hdisk Hrun.
  induction Hrows as [|row c lhs cl Hc _ IH]; constructor; [|exact IH].
  destruct (scale_one_entries priors row c Hc) as (kvs & -> & Hkeys & _).
  split.
  - apply NoDup_keys_fold_assign. constructor.
  - intros name. rewrite keys_fold_assign, Hkeys. simpl. intuition auto.
Qed.

(** X11. When a parameter name is listed more than once, the value its key
    holds comes from the column of its last occurrence. *)
Theorem last_occurrence_wins
  fname save (w w' : World (spectrum C)) lhs cosmo_list i row cosmo k name :
  disk w (lhs_path fname) = Some lhs ->
  scale_lhs S CONFIG C fname save w = (ok cosmo_list, w') ->
  nth_error lhs i = Some row ->
  nth_error cosmo_list i = Some cosmo ->
  nth_error (COSMO CONFIG) k = Some name ->
  (forall j, k < j -> nth_error (COSMO CONFIG) j <> Some name) ->
  exists prior ppf u x,
    prior_of S CONFIG name prior /\
    ppf_method S prior = Some ppf /\
    nth_error row k = Some u /\
    ppf u = ok x /\
    dict_get cosmo name = Some x.
Proof.
  intros Hdisk Hrun Hrow Hcosmo Hk Hlast.
  destruct (scale_lhs_ok_inv S CONFIG C _ _ _ _ _ _ Hdisk Hrun)
    as (priors & Hpriors & Hrows & _).
  destruct (Forall2_nth_error_l _ _ _ Hrows i row Hrow) as (c & Hc & Hone).
  assert (c = cosmo) by congruence. subst c.
  destruct (scale_one_entries priors row cosmo Hone) as (kvs & -> & Hkeys & Hat).
  destruct (Hat k name Hk) as (x & [_ (prior & ppf & u & Hp & Hppf & Hu & Hx)] & Hkv).
  destruct (build_priors_spec S CONFIG _ _ _ Hpriors) as [Hin _].
  destruct (Hin name (nth_error_In _ _ Hk)) as (prior' & Hof & Hp').
  assert (prior' = prior) by congruence. subst prior'.
  exists prior, ppf, u, x. repeat (split; [assumption|]).
  destruct (nth_error_split _ _ Hkv) as (kvs1 & kvs2 & -> & Hlen).
  apply dict_get_fold_assign_last.
  intros Hin2. apply In_nth_error in Hin2. destruct Hin2 as [j Hj].
  apply (Hlast (k + Datatypes.S j)); [lia|].
  rewrite <- Hkeys, map_app. cbn [map].
  rewrite nth_error_app2 by (rewrite length_map; lia).
  rewrite length_map, Hlen.
  replace (k + Datatypes.S j - k) with (Datatypes.S j) by lia.
  exact Hj.
Qed.

Lemma scale_value_of_entry priors cosmo k name x :
  scaled_entry S CONFIG priors cosmo k name x ->
  scale_value S CONFIG priors cosmo k = ok (name, x).
Proof.
  intros [Hname (prior & ppf & u & Hp & Hppf & Hu & Hx)].
  unfold scale_value, item, subscript.
  rewrite Hname. cbn [rbind ok]. rewrite Hp. cbn [rbind ok].
  rewrite Hppf, Hu. cbn [rbind ok]. now rewrite Hx.
Qed.

Lemma scale_one_missing_ppf priors cosmo k name prior :
  nth_error (COSMO CONFIG) k = Some name ->
  dict_get priors name = Some prior ->
  ppf_method S prior = None ->
  (forall j name', j < k -> nth_error (COSMO CONFIG) j = Some name' ->
     exists x, scaled_entry S CONFIG priors cosmo j name' x) ->
  scale_one S CONFIG priors cosmo = inl (AttributeError "ppf").
Proof.
  intros Hname Hprior Hppf Hbefore.
  assert (Hk : k < List.length (COSMO CONFIG)).
  { apply nth_error_Some. congruence. }
  unfold scale_one. rewrite scale_row_traverse.
  replace (List.length (COSMO CONFIG))
    with (k + Datatypes.S (List.length (COSMO CONFIG) - Datatypes.S k)) at 1 by lia.
  rewrite seq_app. cbn [seq plus].
  destruct (traverse_total (scale_value S CONFIG priors cosmo) (seq 0 k)) as [kvs Hkvs].
  { apply Forall_forall. intros j Hj. apply in_seq in Hj.
    destruct (nth_error (COSMO CONFIG) j) as [name'|] eqn:Hj';
      [|apply nth_error_None in Hj'; lia].
    destruct (Hbefore j name' (proj2 Hj) Hj') as [x Hx].
    exists (name', x). now apply scale_value_of_entry. }
  assert (Hat : scale_value S CONFIG priors cosmo k = inl (AttributeError "ppf")).
  { unfold scale_value, item, subscript.
    rewrite Hname. cbn [rbind ok]. rewrite Hprior. cbn [rbind ok]. now rewrite Hppf. }
  now rewrite (traverse_fails _ _ _ _ kvs _ Hkvs Hat).
Qed.

(** X12. A prior object without a quantile function, of whichever
    parameter, goes unnoticed on a frame without rows.  On every other
    frame [scale_lhs] fails on the first row and writes nothing; the
    exception is [AttributeError], raised before the unit value of that
    parameter is read, when the parameters listed before it can be scaled
    on that row. *)
Theorem missing_ppf_fails_on_first_row
  fname save (w : World (spectrum C)) priors k name prior :
  build_priors S CONFIG (COSMO CONFIG) [] = ok priors ->
  nth_error (COSMO CONFIG) k = Some name ->
  dict_get priors name = Some prior ->
  ppf_method S prior = None ->
  (disk w (lhs_path fname) = Some [] ->
   fst (scale_lhs S CONFIG C fname save w) = ok []) /\
  (forall row rows,
     disk w (lhs_path fname) = Some (row :: rows) ->
     (exists e, scale_lhs S CONFIG C fname save w
                = (inl e, logs [ReadCsv (lhs_path fname)] w)) /\
     ((forall j name', j < k -> nth_error (COSMO CONFIG) j = Some name' ->
         exists x, scaled_entry S CONFIG priors row j name' x) ->
      scale_lhs S CONFIG C fname save w
      = (inl (AttributeError "ppf"), logs [ReadCsv (lhs_path fname)] w))).
Proof.
  intros Hpriors Hname Hprior Hppf. split.
  - intros Hdisk. rewrite scale_lhs_run, Hdisk, Hpriors. now destruct save.
  - intros row rows Hdisk. rewrite scale_lhs_run, Hdisk, Hpriors. cbn [ok traverse].
    split.
    + destruct (scale_one S CONFIG priors row) as [e|c] eqn:Hrow.
      * now exists e.
      * exfalso. apply scale_one_scalable in Hrow.
        destruct (Hrow k name Hname) as (x & _ & prior' & ppf & u & Hp & Hppf' & _).
        assert (prior' = prior) by congruence. subst prior'. congruence.
    + intros Hbefore.
      now rewrite (scale_one_missing_ppf priors row k name prior Hname Hprior Hppf Hbefore).
Qed.

(** X13. Entries of the priors for names that are not among the configured
    parameters, and the redshift and wavenumber bounds, have no influence
    on [scale_lhs]: such a prior is never constructed, however broken. *)
Theorem unused_priors_are_ignored (CONFIG' : Config S)
  fname save (w : World (spectrum C)) :
  COSMO CONFIG' = COSMO CONFIG ->
  (forall name, In name (COSMO CONFIG) ->
     dict_get (PRIORS CONFIG') name = dict_get (PRIORS CONFIG) name) ->
  scale_lhs S CONFIG' C fname save w = scale_lhs S CONFIG C fname save w.
Proof.
  intros Hcosmo Hpriors.
  assert (Hbuild : forall params acc,
            (forall name, In name params -> In name (COSMO CONFIG)) ->
            build_priors S CONFIG' params acc = build_priors S CONFIG params acc).
  { induction params as [|param rest IH]; intros acc Hsub; [reflexivity|].
    cbn [build_priors]. unfold subscript.
    rewrite (Hpriors param) by (apply Hsub; now left).
    destruct (dict_get (PRIORS CONFIG) param) as [spec|]; cbn [rbind ok raise];
      [|reflexivity].
    destruct (generate_prior S spec); cbn [rbind]; [reflexivity|].
    apply IH. intros name Hname. apply Hsub. now right. }
  assert (Hrow : forall priors cosmo ks acc,
            scale_row S CONFIG' priors cosmo ks acc
            = scale_row S CONFIG priors cosmo ks acc).
  { intros priors cosmo ks. induction ks as [|k ks IH]; intros acc; [reflexivity|].
    cbn [scale_row]. unfold scale_value. rewrite Hcosmo.
    match goal with |- rbind ?r _ = _ => destruct r end; cbn [rbind]; [reflexivity|].
    apply IH. }
  rewrite !scale_lhs_run, Hcosmo, (Hbuild _ _ (fun _ H => H)).
  destruct (disk w (lhs_path fname)) as [lhs|]; [|reflexivity].
  destruct (build_priors S CONFIG (COSMO CONFIG) []) as [e|priors]; [reflexivity|].
  rewrite (traverse_ext (scale_one S CONFIG' priors) (scale_one S CONFIG priors)).
  - reflexivity.
  - intros row _. unfold scale_one. now rewrite Hcosmo, Hrow.
Qed.

End Repeats.

(** ** The order of effects in [pk_linear] *)

Section Effects.

Context (S : Stats) (CONFIG : Config S) (C : Cosmology).

(** X14. A run of [pk_linear] that returns has read the input once, written
    the cosmologies, constructed the engine once with the configured
    bounds, called it exactly once per cosmology, in order and with the
    given redshift, and only then written the spectra; the cosmologies it
    returns are those of [scale_lhs]. *)
Theorem pk_linear_success_trace
  fname z (w w' : World (spectrum C)) cosmologies pk_lin :
  pk_linear S CONFIG C fname z w = (ok (cosmologies, pk_lin), w') ->
  fst (scale_lhs S CONFIG C fname true w) = ok cosmologies /\
  w' = logs ([ReadCsv (lhs_path fname);
              SaveCsv (Cosmologies cosmologies) "data" "cosmologies";
              SaveList (Cosmologies cosmologies) "data" "cosmologies";
              NewEngine (Z_MIN CONFIG) (Z_MAX CONFIG) (K_MIN CONFIG) (K_MAX CONFIG)]
             ++ map (fun c => CallEngine c z) cosmologies
             ++ [SaveCsv (Spectra pk_lin) "data" "pk_linear";
                 SaveList (Spectra pk_lin) "data" "pk_linear"]) w.
Proof.
  intros Hrun.
  destruct (pk_linear_ok_inv S CONFIG C _ _ _ _ _ _ Hrun)
    as (w1 & module & Hscale & _ & _ & ->).
  destruct (scale_lhs_ok_disk S CONFIG C _ _ _ _ _ Hscale) as [lhs Hdisk].
  destruct (scale_lhs_ok_inv S CONFIG C _ _ _ _ _ _ Hdisk Hscale) as (_ & _ & _ & ->).
  split; [now rewrite Hscale|].
  unfold logs. cbn. now rewrite <- app_assoc.
Qed.

(** X15. Once [scale_lhs] has returned inside [pk_linear], the cosmologies
    are on disk whatever happens next: the engine is constructed after the
    two writes, it is called on a prefix of the cosmologies, and spectra
    are written only by a run that returns, after the call on the last
    cosmology. *)
Theorem cosmologies_are_written_first
  fname z (w w1 : World (spectrum C)) cosmologies :
  scale_lhs S CONFIG C fname true w = (ok cosmologies, w1) ->
  exists n tail,
    snd (pk_linear S CONFIG C fname z w)
    = logs ([ReadCsv (lhs_path fname);
             SaveCsv (Cosmologies cosmologies) "data" "cosmologies";
             SaveList (Cosmologies cosmologies) "data" "cosmologies";
             NewEngine (Z_MIN CONFIG) (Z_MAX CONFIG) (K_MIN CONFIG) (K_MAX CONFIG)]
            ++ map (fun c => CallEngine c z) (firstn n cosmologies)
            ++ tail) w /\
    ((tail = [] /\ exists e, fst (pk_linear S CONFIG C fname z w) = inl e) \/
     (n = List.length cosmologies /\
      exists pk_lin,
        fst (pk_linear S CONFIG C fname z w) = ok (cosmologies, pk_lin) /\
        tail = [SaveCsv (Spectra pk_lin) "data" "pk_linear";
                SaveList (Spectra pk_lin) "data" "pk_linear"])).
Proof.
  intros Hscale.
  destruct (scale_lhs_ok_disk S CONFIG C _ _ _ _ _ Hscale) as [lhs Hdisk].
  destruct (scale_lhs_ok_inv S CONFIG C _ _ _ _ _ _ Hdisk Hscale) as (_ & _ & _ & Hw1).
  rewrite pk_linear_run, Hscale. cbn [ok].
  destruct (PowerSpectrum C (Z_MIN CONFIG) (Z_MAX CONFIG) (K_MIN CONFIG) (K_MAX CONFIG))
    as [e|module].
  - exists 0, []. split.
    + cbn [snd firstn map]. rewrite Hw1. unfold log, logs. cbn.
      now rewrite <- app_assoc.
    + left. split; [reflexivity|]. now exists e.
  - destruct (traverse (fun c => module_pk_linear C module c z) cosmologies)
      as [e|pks] eqn:Ht.
    + destruct (pk_loop_calls C module z cosmologies [] (log (NewEngine (Z_MIN CONFIG) (Z_MAX CONFIG) (K_MIN CONFIG) (K_MAX CONFIG)) w1)) as [n Hn].
      pose proof (pk_loop_fst C module z cosmologies [] (log (NewEngine (Z_MIN CONFIG) (Z_MAX CONFIG) (K_MIN CONFIG) (K_MAX CONFIG)) w1)) as Hf.
      rewrite Ht in Hf. cbn [rbind] in Hf.
      destruct (pk_loop C module z cosmologies [] (log (NewEngine (Z_MIN CONFIG) (Z_MAX CONFIG) (K_MIN CONFIG) (K_MAX CONFIG)) w1)) as [[e'|p] w2];
        [|discriminate].
      cbn [fst snd] in *. exists n, []. split.
      * rewrite Hn, Hw1. unfold log, logs. cbn.
        now rewrite app_nil_r, <- !app_assoc.
      * left. split; [reflexivity|]. now exists e'.
    + rewrite (pk_loop_ok C module z cosmologies pks [] _ Ht). cbn [app fst snd].
      exists (List.length cosmologies),
             [SaveCsv (Spectra pks) "data" "pk_linear";
              SaveList (Spectra pks) "data" "pk_linear"].
      split.
      * rewrite firstn_all, Hw1. unfold log, logs. cbn.
        now rewrite <- !app_assoc.
      * right. split; [reflexivity|]. now exists pks.
Qed.

(** X16. When the engine cannot be constructed [pk_linear] raises the
    exception of the constructor: the cosmologies are written, the engine
    is not called and no spectra are written. *)
Theorem engine_constructor_failure
  fname z (w w1 : World (spectrum C)) cosmologies e :
  scale_lhs S CONFIG C fname true w = (ok cosmologies, w1) ->
  PowerSpectrum C (Z_MIN CONFIG) (Z_MAX CONFIG) (K_MIN CONFIG) (K_MAX CONFIG)
    = inl e ->
  pk_linear S CONFIG C fname z w
  = (inl e,
     logs [ReadCsv (lhs_path fname);
           SaveCsv (Cosmologies cosmologies) "data" "cosmologies";
           SaveList (Cosmologies cosmologies) "data" "cosmologies";
           NewEngine (Z_MIN CONFIG) (Z_MAX CONFIG) (K_MIN CONFIG) (K_MAX CONFIG)] w).
Proof.
  intros Hscale Hmod.
  destruct (scale_lhs_ok_disk S CONFIG C _ _ _ _ _ Hscale) as [lhs Hdisk].
  destruct (scale_lhs_ok_inv S CONFIG C _ _ _ _ _ _ Hdisk Hscale) as (_ & _ & _ & Hw1).
  rewrite pk_linear_run, Hscale. cbn [ok]. rewrite Hmod, Hw1.
  unfold log, logs. cbn. now rewrite <- app_assoc.
Qed.

(** X17. [pk_linear] returns exactly when [scale_lhs] returns, the engine
    can be constructed and it answers on every scaled cosmology. *)
Theorem pk_linear_returns_iff fname z (w : World (spectrum C)) :
  (exists r, fst (pk_linear S CONFIG C fname z w) = ok r) <->
  (exists cosmologies module,
     fst (scale_lhs S CONFIG C fname true w) = ok cosmologies /\
     PowerSpectrum C (Z_MIN CONFIG) (Z_MAX CONFIG) (K_MIN CONFIG) (K_MAX CONFIG)
       = ok module /\
     Forall (answers C module z) cosmologies).
Proof.
  split.
  - intros [[cs pks] Hr].
    destruct (pk_linear S CONFIG C fname z w) as [r w'] eqn:Hrun.
    cbn [fst] in Hr. subst r.
    destruct (pk_linear_ok_inv S CONFIG C _ _ _ _ _ _ Hrun)
      as (w1 & module & Hscale & Hmod & Hpk & _).
    exists cs, module. split; [now rewrite Hscale|]. split; [exact Hmod|].
    clear Hrun Hscale. induction Hpk as [|c pk cs pks Hc _ IH]; constructor; auto.
    now exists pk.
  - intros (cs & module & Hscale & Hmod & Hall).
    destruct (scale_lhs S CONFIG C fname true w) as [r w1] eqn:Hrun.
    cbn [fst] in Hscale. subst r.
    destruct (pk_linear_returns S CONFIG C fname z w w1 cs module Hrun Hmod Hall)
      as [pks Hpks].
    now exists (cs, pks).
Qed.

(** X18. Without configured parameters every row scales to the empty
    cosmology: the rows are not looked at, and no prior is needed. *)
Theorem no_parameters_no_values fname save (w : World (spectrum C)) lhs :
  COSMO CONFIG = [] ->
  disk w (lhs_path fname) = Some lhs ->
  fst (scale_lhs S CONFIG C fname save w) = ok (map (fun _ => []) lhs).
Proof.
  intros Hcosmo Hdisk. rewrite scale_lhs_run, Hdisk, Hcosmo. cbn [build_priors ok].
  assert (Ht : traverse (scale_one S CONFIG []) lhs = inr (map (fun _ => []) lhs)).
  { clear Hdisk. induction lhs as [|row lhs IH]; [reflexivity|].
    cbn [traverse map]. unfold scale_one at 1. rewrite Hcosmo.
    cbn [List.length seq scale_row rbind ok].
    rewrite IH. reflexivity. }
  now rewrite Ht.
Qed.

End Effects.

(** * The further properties on the concrete instances *)

Lemma unit_priors_total :
  quantiles_total Toy.stats [("param1", Toy.Frozen 0 1); ("param2", Toy.Frozen 0 1)].
Proof.
  intros name prior H. cbn [dict_get] in H.
  destruct (String.eqb "param1" name).
  - inversion H; subst. eexists. split; [reflexivity|]. intros u. eexists. reflexivity.
  - destruct (String.eqb "param2" name); [|discriminate].
    inversion H; subst. eexists. split; [reflexivity|]. intros u. eexists. reflexivity.
Qed.

Lemma missing_input_witness :
  disk Toy.world (lhs_path "nowhere") = None /\
  scale_lhs Toy.stats Toy.bad_config Toy.cosmo_engine "nowhere" true Toy.world
  = (raise (FileError "data/nowhere.csv"), Toy.world) /\
  pk_linear Toy.stats Toy.bad_config Toy.cosmo_engine "nowhere" 0%float Toy.world
  = (raise (FileError "data/nowhere.csv"), Toy.world).
Proof.
  split; [reflexivity|].
  apply (missing_input_stops_everything Toy.stats Toy.bad_config Toy.cosmo_engine
           "nowhere" true 0%float Toy.world eq_refl).
Defined.

Lemma extension_witness :
  str_contains ".csv" "two" = false /\
  lhs_path "two.csv" = lhs_path "two" /\
  scale_lhs Toy.stats Toy.config Toy.cosmo_engine "two.csv" true Toy.world
  = scale_lhs Toy.stats Toy.config Toy.cosmo_engine "two" true Toy.world.
Proof.
  split; [reflexivity|].
  apply (extension_is_optional Toy.stats Toy.config Toy.cosmo_engine "two" true
           Toy.world eq_refl).
Defined.

Lemma first_failing_prior_witness :
  COSMO Variants.missing_config = ["param1"] ++ "param3" :: [] /\
  prior_result Toy.stats Variants.missing_config "param3" = inl (KeyError "param3") /\
  scale_lhs Toy.stats Variants.missing_config Toy.cosmo_engine "two" true Variants.world
  = (inl (KeyError "param3"), logs [ReadCsv (lhs_path "two")] Variants.world).
Proof.
  split; [reflexivity|]. split; [reflexivity|].
  apply (first_failing_prior_decides Toy.stats Variants.missing_config Toy.cosmo_engine
           "two" true Variants.world Toy.two_rows ["param1"] "param3" []
           (KeyError "param3") eq_refl eq_refl).
  - constructor; [|constructor]. eexists. reflexivity.
  - reflexivity.
Defined.

Lemma scale_lhs_returns_witness :
  (exists cl, fst (scale_lhs Toy.stats Toy.config Toy.cosmo_engine "two" false Toy.world)
              = ok cl) /\
  exists lhs priors,
    disk Toy.world (lhs_path "two") = Some lhs /\
    build_priors Toy.stats Toy.config (COSMO Toy.config) [] = ok priors /\
    Forall (scalable Toy.stats Toy.config priors) lhs.
Proof.
  assert (H : exists cl,
            fst (scale_lhs Toy.stats Toy.config Toy.cosmo_engine "two" false Toy.world)
            = ok cl).
  { exists (Toy.scaled Toy.two_rows). reflexivity. }
  split; [exact H|].
  apply (proj1 (scale_lhs_returns_iff Toy.stats Toy.config Toy.cosmo_engine
                  "two" false Toy.world) H).
Defined.

Lemma failing_row_witness :
  disk Variants.world (lhs_path "short")
  = Some ([[0.25; 0.5]] ++ [0.5] :: [[0.75; 0.25]])%float /\
  scale_one Toy.stats Toy.config
    [("param1", Toy.Frozen 0 1); ("param2", Toy.Frozen 0 1)] [0.5%float]
  = inl IndexError /\
  scale_lhs Toy.stats Toy.config Toy.cosmo_engine "short" true Variants.world
  = (inl IndexError, logs [ReadCsv (lhs_path "short")] Variants.world).
Proof.
  split; [reflexivity|]. split; [reflexivity|].
  apply (failing_row_discards_all Toy.stats Toy.config Toy.cosmo_engine
           "short" true Variants.world [[0.25; 0.5]]%float [0.5%float]
           [[0.75; 0.25]]%float
           [("param1", Toy.Frozen 0 1); ("param2", Toy.Frozen 0 1)] IndexError
           eq_refl eq_refl).
  - constructor; [|constructor].
    apply (scale_one_scalable Toy.stats Toy.config _ _
             [("param1", 0.25%float); ("param2", 0.5%float)]).
    reflexivity.
  - reflexivity.
Defined.

Lemma extra_columns_witness :
  map (firstn (List.length (COSMO Toy.config))) Variants.wide_rows
  = map (firstn (List.length (COSMO Toy.config))) Toy.two_rows /\
  fst (scale_lhs Toy.stats Toy.config Toy.cosmo_engine "wide" true Variants.world)
  = fst (scale_lhs Toy.stats Toy.config Toy.cosmo_engine "two" false Toy.world).
Proof.
  split; [reflexivity|].
  apply (extra_columns_are_ignored Toy.stats Toy.config Toy.cosmo_engine
           "wide" "two" true false Variants.world Toy.world
           Variants.wide_rows Toy.two_rows eq_refl eq_refl eq_refl).
Defined.

Lemma short_row_witness :
  Exists (fun row => List.length row < List.length (COSMO Toy.config))
         Variants.short_rows /\
  scale_lhs Toy.stats Toy.config Toy.cosmo_engine "short" true Variants.world
  = (inl IndexError, logs [ReadCsv (lhs_path "short")] Variants.world).
Proof.
  assert (Hshort : Exists (fun row => List.length row < List.length (COSMO Toy.config))
                          Variants.short_rows).
  { apply Exists_cons_tl. apply Exists_cons_hd. simpl. lia. }
  split; [exact Hshort|].
  apply (short_row_raises_IndexError Toy.stats Toy.config Toy.cosmo_engine
           "short" true Variants.world Variants.short_rows
           [("param1", Toy.Frozen 0 1); ("param2", Toy.Frozen 0 1)]
           eq_refl eq_refl unit_priors_total Hshort).
Defined.

Lemma wide_rows_witness :
  Forall (fun row => List.length (COSMO Toy.config) <= List.length row)
         Variants.wide_rows /\
  exists cl,
    fst (scale_lhs Toy.stats Toy.config Toy.cosmo_engine "wide" true Variants.world)
    = ok cl.
Proof.
  assert (Hwide : Forall (fun row => List.length (COSMO Toy.config) <= List.length row)
                         Variants.wide_rows).
  { repeat constructor. }
  split; [exact Hwide|].
  apply (proj2 (scale_lhs_returns_iff_wide Toy.stats Toy.config Toy.cosmo_engine
                  "wide" true Variants.world Variants.wide_rows
                  [("param1", Toy.Frozen 0 1); ("param2", Toy.Frozen 0 1)]
                  eq_refl eq_refl unit_priors_total) Hwide).
Defined.

Lemma cosmology_keys_witness :
  disk Variants.world (lhs_path "wide") = Some Variants.wide_rows /\
  Forall (fun cosmo =>
            NoDup (keys cosmo) /\
            forall name, In name (keys cosmo) <-> In name (COSMO Variants.dup_config))
         [[("param1", 0.75%float); ("param2", 0.5%float)];
          [("param1", 0.125%float); ("param2", 0.75%float)]].
Proof.
  split; [reflexivity|].
  apply (cosmology_keys_are_the_names Toy.stats Variants.dup_config Toy.cosmo_engine
           "wide" false Variants.world (logs [ReadCsv "data/wide.csv"] Variants.world)
           Variants.wide_rows _ eq_refl eq_refl).
Defined.

Lemma last_occurrence_witness :
  nth_error (COSMO Variants.dup_config) 2 = Some "param1" /\
  exists prior ppf u x,
    prior_of Toy.stats Variants.dup_config "param1" prior /\
    ppf_method Toy.stats prior = Some ppf /\
    nth_error [0.25; 0.5; 0.75]%float 2 = Some u /\
    ppf u = ok x /\
    dict_get [("param1", 0.75%float); ("param2", 0.5%float)] "param1" = Some x.
Proof.
  split; [reflexivity|].
  apply (last_occurrence_wins Toy.stats Variants.dup_config Toy.cosmo_engine
           "wide" false Variants.world (logs [ReadCsv "data/wide.csv"] Variants.world)
           Variants.wide_rows
           [[("param1", 0.75%float); ("param2", 0.5%float)];
            [("param1", 0.125%float); ("param2", 0.75%float)]]
           0 [0.25; 0.5; 0.75]%float _ 2 "param1"
           eq_refl eq_refl eq_refl eq_refl eq_refl).
  intros j Hj. destruct j as [|[|[|j]]]; try lia.
  destruct j; discriminate.
Defined.

Lemma missing_ppf_witness :
  build_priors Toy.stats Variants.describe_second_config
    (COSMO Variants.describe_second_config) []
  = ok [("param1", Toy.Frozen 0 1); ("param2", Toy.DescribeResult 3)] /\
  nth_error (COSMO Variants.describe_second_config) 1 = Some "param2" /\
  fst (scale_lhs Toy.stats Variants.describe_second_config Toy.cosmo_engine "empty" true
         Variants.world) = ok [] /\
  scale_lhs Toy.stats Variants.describe_second_config Toy.cosmo_engine "two" true
    Variants.world
  = (inl (AttributeError "ppf"), logs [ReadCsv (lhs_path "two")] Variants.world).
Proof.
  split; [reflexivity|]. split; [reflexivity|].
  destruct (missing_ppf_fails_on_first_row Toy.stats Variants.describe_second_config
              Toy.cosmo_engine "empty" true Variants.world
              [("param1", Toy.Frozen 0 1); ("param2", Toy.DescribeResult 3)]
              1 "param2" (Toy.DescribeResult 3)
              eq_refl eq_refl eq_refl eq_refl) as [Hempty _].
  destruct (missing_ppf_fails_on_first_row Toy.stats Variants.describe_second_config
              Toy.cosmo_engine "two" true Variants.world
              [("param1", Toy.Frozen 0 1); ("param2", Toy.DescribeResult 3)]
              1 "param2" (Toy.DescribeResult 3)
              eq_refl eq_refl eq_refl eq_refl) as [_ Hrows].
  split; [apply Hempty; reflexivity|].
  destruct (Hrows [0.25; 0.5]%float [[0.5; 0.75]]%float eq_refl) as [_ Hattr].
  apply Hattr. intros j name' Hj Hname'.
  destruct j as [|j]; [|lia].
  inversion Hname'; subst name'.
  exists 0.25%float. split; [reflexivity|].
  exists (Toy.Frozen 0 1), (fun q => ok (Toy.uniform_ppf 0 1 q)), 0.25%float.
  repeat split.
Defined.

Lemma unused_priors_witness :
  COSMO Variants.extra_config = COSMO Toy.config /\
  scale_lhs Toy.stats Variants.extra_config Toy.cosmo_engine "two" true Toy.world
  = scale_lhs Toy.stats Toy.config Toy.cosmo_engine "two" true Toy.world.
Proof.
  split; [reflexivity|].
  apply (unused_priors_are_ignored Toy.stats Toy.config Toy.cosmo_engine
           Variants.extra_config "two" true Toy.world eq_refl).
  intros name [<-|[<-|[]]]; reflexivity.
Defined.

Lemma pk_linear_success_witness :
  fst (pk_linear Toy.stats Toy.config Toy.cosmo_engine "two" 0%float Toy.world)
  = ok (Toy.scaled Toy.two_rows, Toy.two_spectra) /\
  snd (pk_linear Toy.stats Toy.config Toy.cosmo_engine "two" 0%float Toy.world)
  = logs ([ReadCsv (lhs_path "two");
           SaveCsv (Cosmologies (Toy.scaled Toy.two_rows)) "data" "cosmologies";
           SaveList (Cosmologies (Toy.scaled Toy.two_rows)) "data" "cosmologies";
           NewEngine 0%float 5%float 0.125%float 50%float]
          ++ map (fun c => CallEngine c 0%float) (Toy.scaled Toy.two_rows)
          ++ [SaveCsv (Spectra Toy.two_spectra) "data" "pk_linear";
              SaveList (Spectra Toy.two_spectra) "data" "pk_linear"]) Toy.world.
Proof.
  split; [reflexivity|].
  apply (pk_linear_success_trace Toy.stats Toy.config Toy.cosmo_engine "two" 0%float
           Toy.world
           (snd (pk_linear Toy.stats Toy.config Toy.cosmo_engine "two" 0%float Toy.world))
           (Toy.scaled Toy.two_rows) Toy.two_spectra eq_refl).
Defined.

Lemma cosmologies_first_witness :
  fst (scale_lhs Toy.stats Toy.config Toy.cosmo_engine "three" true Toy.world)
  = ok (Toy.scaled Toy.three_rows) /\
  exists n tail,
    snd (pk_linear Toy.stats Toy.config Toy.cosmo_engine "three" 0%float Toy.world)
    = logs ([ReadCsv (lhs_path "three");
             SaveCsv (Cosmologies (Toy.scaled Toy.three_rows)) "data" "cosmologies";
             SaveList (Cosmologies (Toy.scaled Toy.three_rows)) "data" "cosmologies";
             NewEngine 0%float 5%float 0.125%float 50%float]
            ++ map (fun c => CallEngine c 0%float) (firstn n (Toy.scaled Toy.three_rows))
            ++ tail) Toy.world /\
    ((tail = [] /\
      exists e, fst (pk_linear Toy.stats Toy.config Toy.cosmo_engine "three" 0%float
                       Toy.world) = inl e) \/
     (n = List.length (Toy.scaled Toy.three_rows) /\
      exists pk_lin,
        fst (pk_linear Toy.stats Toy.config Toy.cosmo_engine "three" 0%float Toy.world)
        = ok (Toy.scaled Toy.three_rows, pk_lin) /\
        tail = [SaveCsv (Spectra pk_lin) "data" "pk_linear";
                SaveList (Spectra pk_lin) "data" "pk_linear"])).
Proof.
  split; [reflexivity|].
  apply (cosmologies_are_written_first Toy.stats Toy.config Toy.cosmo_engine
           "three" 0%float Toy.world
           (snd (scale_lhs Toy.stats Toy.config Toy.cosmo_engine "three" true Toy.world))
           (Toy.scaled Toy.three_rows) eq_refl).
Defined.

Lemma engine_constructor_witness :
  PowerSpectrum Variants.broken_engine 0%float 5%float 0.125%float 50%float
  = inl (Raised "init") /\
  pk_linear Toy.stats Toy.config Variants.broken_engine "two" 0%float Toy.world
  = (inl (Raised "init"),
     logs [ReadCsv (lhs_path "two");
           SaveCsv (Cosmologies (Toy.scaled Toy.two_rows)) "data" "cosmologies";
           SaveList (Cosmologies (Toy.scaled Toy.two_rows)) "data" "cosmologies";
           NewEngine 0%float 5%float 0.125%float 50%float] Toy.world).
Proof.
  split; [reflexivity|].
  apply (engine_constructor_failure Toy.stats Toy.config Variants.broken_engine
           "two" 0%float Toy.world
           (snd (scale_lhs Toy.stats Toy.config Variants.broken_engine "two" true
                   Toy.world))
           (Toy.scaled Toy.two_rows) (Raised "init") eq_refl eq_refl).
Defined.

Lemma pk_linear_returns_witness :
  (exists r, fst (pk_linear Toy.stats Toy.config Toy.cosmo_engine "two" 0%float Toy.world)
             = ok r) /\
  exists cosmologies module,
    fst (scale_lhs Toy.stats Toy.config Toy.cosmo_engine "two" true Toy.world)
    = ok cosmologies /\
    PowerSpectrum Toy.cosmo_engine (Z_MIN Toy.config) (Z_MAX Toy.config)
      (K_MIN Toy.config) (K_MAX Toy.config) = ok module /\
    Forall (answers Toy.cosmo_engine module 0%float) cosmologies.
Proof.
  assert (H : exists r,
            fst (pk_linear Toy.stats Toy.config Toy.cosmo_engine "two" 0%float Toy.world)
            = ok r).
  { exists (Toy.scaled Toy.two_rows, Toy.two_spectra). reflexivity. }
  split; [exact H|].
  apply (proj1 (pk_linear_returns_iff Toy.stats Toy.config Toy.cosmo_engine
                  "two" 0%float Toy.world) H).
Defined.

Lemma no_parameters_witness :
  COSMO Variants.empty_config = [] /\
  fst (scale_lhs Toy.stats Variants.empty_config Toy.cosmo_engine "two" true
         Variants.world)
  = ok [[]; []].
Proof.
  split; [reflexivity|].
  apply (no_parameters_no_values Toy.stats Variants.empty_config Toy.cosmo_engine
           "two" true Variants.world Toy.two_rows eq_refl eq_refl).
Defined.
